(** * Bonzai command trees: resolution, dispatch and completion

    A shallow embedding of package [Z] ([z/cmd.go], [z/bonzai.go]) and of
    [comp.Standard] ([comp/standard.go]), with the properties of the
    command-tree engine stated over it.

    Conventions of the embedding.
    - A Go string is a byte string: [string] of the standard library.
      Where the code reads it as text ([strings.Fields]) the bytes are
      decoded as UTF-8, rune by rune.
    - A Go slice is [slice A]: [None] is the nil slice, [Some l] a non-nil
      slice holding [l].  Argument vectors are plain lists: no caller of the
      functions below can tell a nil argument vector from an empty one.
    - [*Cmd] is an address [ptr]; the store [Heap] maps every address to the
      node it holds, so two occurrences of one address are one shared node
      and a write through either is seen through both.  Entries of
      [Commands] are addresses of nodes: nil entries are outside the model.
    - The hooks of a node ([Call], [Completer], [UsageFunc]) are Go closures;
      they are functions of their explicit arguments here. *)

From Stdlib Require Import ZArith Ascii String List Lia Bool.
From stdpp Require Import base option list gmap strings fin_maps.

Local Open Scope string_scope.
Local Open Scope Z_scope.
Local Open Scope list_scope.

(** ** Go values *)

Definition slice (A : Type) : Type := option (list A).

(** The elements a [range] loop visits: none for the nil slice. *)
Definition elems {A : Type} (s : slice A) : list A :=
  match s with
  | None => []
  | Some l => l
  end.

(** [len(s)] *)
Definition len {A : Type} (s : list A) : Z := Z.of_nat (length s).

Definition ptr : Type := nat.

(** [type Method func(caller *Cmd, args ...string) error]: the result is
    [None] for a nil error, [Some msg] for an error printing as [msg]. *)
Definition Method : Type := ptr -> list string -> option string.

(** [bonzai.Completer] and [bonzai.UsageFunc], specialised to [*Cmd]. *)
Definition Completer_t : Type := ptr -> list string -> list string.
Definition UsageFunc_t : Type := ptr -> string.

(** ** [type Cmd struct] (cmd.go:21)

    The documentation fields (Summary, Usage, Version, ..., Other) and the
    [_sections] cache are not read by resolution, dispatch or completion and
    are left out. *)
Record Cmd : Type := mkCmd {
  Name : string;
  Aliases : slice string;
  Commands : slice ptr;
  Params : slice string;
  Hidden : slice string;
  Completer : option Completer_t;
  UsageFunc : option UsageFunc_t;
  Caller : option ptr;
  Call : option Method;
  MinArgs : Z;
  MinParm : Z;
  MaxParm : Z;
  ReqConf : bool;
  _aliases : option (gmap string ptr)
}.

Definition Heap : Type := ptr -> Cmd.

(** [*p = c] *)
Definition store (h : Heap) (p : ptr) (c : Cmd) : Heap :=
  fun q => if Nat.eqb q p then c else h q.

(** [c.Caller = p] *)
Definition set_Caller (p : option ptr) (c : Cmd) : Cmd :=
  mkCmd (Name c) (Aliases c) (Commands c) (Params c) (Hidden c) (Completer c)
        (UsageFunc c) p (Call c) (MinArgs c) (MinParm c) (MaxParm c)
        (ReqConf c) (_aliases c).

(** [c._aliases = m] *)
Definition set_aliases (m : option (gmap string ptr)) (c : Cmd) : Cmd :=
  mkCmd (Name c) (Aliases c) (Commands c) (Params c) (Hidden c) (Completer c)
        (UsageFunc c) (Caller c) (Call c) (MinArgs c) (MinParm c) (MaxParm c)
        (ReqConf c) m.

(** A freshly declared node, as the composite literal [&Cmd{Name: n}]. *)
Definition newCmd (n : string) : Cmd :=
  mkCmd n None None None None None None None None 0 0 0 false None.

(** ** cmd.go *)

(** The inner loop of [cacheAliases]: [for _, a := range c.Aliases
    { x._aliases[a] = c }]. *)
Definition alias_entries (c : ptr) (al : list string)
    (m : gmap string ptr) : gmap string ptr :=
  fold_left (fun acc a => <[a := c]> acc) al m.

(** One round of the outer loop of [cacheAliases]: a child whose [Aliases]
    is nil is passed over. *)
Definition cache_child (h : Heap) (acc : gmap string ptr) (c : ptr)
    : gmap string ptr :=
  match Aliases (h c) with
  | None => acc
  | Some al => alias_entries c al acc
  end.

(** The outer loop of [cacheAliases] over [x.Commands]. *)
Definition alias_table (h : Heap) (cs : list ptr) : gmap string ptr :=
  fold_left (cache_child h) cs ∅.

(** [func (x *Cmd) cacheAliases()] (cmd.go:132) *)
Definition cacheAliases (h : Heap) (x : ptr) : Heap :=
  match Commands (h x) with
  | None => store h x (set_aliases (Some ∅) (h x))
  | Some cs => store h x (set_aliases (Some (alias_table h cs)) (h x))
  end.

(** [func (x *Cmd) Resolve(name string) *Cmd] (cmd.go:294).  Reading a nil
    map finds nothing. *)
Definition Resolve (h : Heap) (x : ptr) (name : string) : option ptr :=
  match Commands (h x) with
  | None => None
  | Some cs =>
      match List.find (fun c => String.eqb name (Name (h c))) cs with
      | Some c => Some c
      | None =>
          match _aliases (h x) with
          | None => None
          | Some m => m !! name
          end
      end
  end.

(** [func (x *Cmd) CmdNames() []string] (cmd.go:310) *)
Definition CmdNames (h : Heap) (x : ptr) : list string :=
  List.filter (fun n => negb (String.eqb n ""))
              (List.map (fun c => Name (h c)) (elems (Commands (h x)))).

(** [func (x *Cmd) IsHidden(name string) bool] (cmd.go:359) *)
Definition IsHidden (h : Heap) (x : ptr) (name : string) : bool :=
  match Hidden (h x) with
  | None => false
  | Some hs => List.existsb (fun hd => String.eqb hd name) hs
  end.

(** The loop of [Seek]: [next.Caller = cur] is a write to the store. *)
Fixpoint seek_loop (h : Heap) (cur : ptr) (args : list string)
    : Heap * ptr * list string :=
  match args with
  | [] => (h, cur, [])
  | a :: rest =>
      match Resolve h cur a with
      | None => (h, cur, args)
      | Some next =>
          seek_loop (store h next (set_Caller (Some cur) (h next))) next rest
      end
  end.

(** [func (x *Cmd) Seek(args []string)] (cmd.go:371), returning the node
    reached and the residual arguments (and here the store it leaves).
    The guard's [args == nil] returns [(x, args)], which is also what the
    loop returns on an empty vector. *)
Definition Seek (h : Heap) (x : ptr) (args : list string)
    : Heap * ptr * list string :=
  match Commands (h x) with
  | None => (h, x, args)
  | Some _ => seek_loop h x args
  end.

(** The walk of [Path] up the [Caller] references, each name pushed on the
    front.  The Go loop has no bound and does not end on a cyclic chain:
    [None] is a walk that is still going when the fuel is spent. *)
Fixpoint callers (fuel : nat) (h : Heap) (p : option ptr) (acc : list string)
    : option (list string) :=
  match p with
  | None => Some acc
  | Some q =>
      match fuel with
      | O => None
      | S fuel' => callers fuel' h (Caller (h q)) (Name (h q) :: acc)
      end
  end.

(** [func (x *Cmd) Path() []string] (cmd.go:392): the names from the node
    below the root down to [x]; [Shift] drops the root's own. *)
Definition Path (fuel : nat) (h : Heap) (x : ptr) : option (list string) :=
  match callers fuel h (Caller (h x)) [Name (h x)] with
  | None => None
  | Some names => Some (List.tl names)
  end.

(** [func (x *Cmd) PathString() string] (cmd.go:405) *)
Definition PathString (fuel : nat) (h : Heap) (x : ptr) : option string :=
  match Path fuel h x with
  | None => None
  | Some p => Some (String.concat "." p)
  end.

(** ** Errors, panics and observable events *)

(** The error values of the package, by the call that builds them. *)
Inductive error : Type :=
| ErrUsage (text name usage : string)
    (* fmt.Errorf("%v: %v %v", UsageText, x.Name, usage(x)) *)
| ErrReqConf (name : string)
    (* "cmd %q requires a configurer (Z.Conf must be assigned)" *)
| ErrUnimplemented (name : string)
    (* "%q has not yet been implemented" *)
| ErrDefaultCall
    (* "default commands require Call function" *)
| ErrMulticallMissing
    (* "multicall command missing" *)
| ErrFirstNotCmd
    (* "first value must be *Cmd" *)
| ErrOnlyStrings
    (* "only string arguments allowed" *)
| ErrUnmapped (exe : string)
    (* "unmapped multicall command: %v" *)
| ErrMethod (msg : string).
    (* the error a Method returned *)

(** [fmt.Sprintf("%v", e)] is empty only for a Method's error with an empty
    message: every other format above has literal text. *)
Definition error_is_blank (e : error) : bool :=
  match e with
  | ErrMethod msg => String.eqb msg ""
  | _ => false
  end.

(** The run-time faults the code below can raise. *)
Inductive panic : Type :=
| NilCall        (* call of a nil func value *)
| NilDeref       (* field of a nil *Cmd *)
| OutOfRange.    (* index or slice bound out of range *)

Inductive Event : Type :=
| EvLog (e : error)                       (* a line of the log package *)
| EvLogPanic (p : panic)                  (* TrapPanic's log.Println(r) *)
| EvStdout (lines : list string)          (* lines written to stdout *)
| EvCall (cmd : ptr) (args : list string) (* cmd.Call(cmd, args...) *)
| EvCompleter (cmd : ptr) (args : list string)
| EvQuery (path : string).                (* Conf.Query(path) *)

(** ** Process-wide variables (bonzai.go)

    Set before a run and only read during it.  [EscAll] is a function of
    the package declared outside the files at hand; the run is stated for
    any such function. *)
Inductive any : Type :=
| AnyCmd (p : ptr)
| AnyString (s : string)
| AnyOther.

Record Globals : Type := mkGlobals {
  COMP_LINE : string;                        (* os.Getenv("COMP_LINE") *)
  ExeName : string;
  Z_Commands : gmap string (list any);       (* var Commands *)
  Z_Aliases : gmap string (slice string);    (* var Aliases *)
  Conf : option (string -> string);          (* var Conf, by its Query *)
  UsageText : string;
  Z_UsageFunc : Heap -> ptr -> string;       (* var UsageFunc *)
  DoNotExit : bool;
  AllowPanic : bool;
  EscAll : list string -> list string
}.

(** What a run changes: the store, [os.Args], and what the process has
    emitted so far, in order. *)
Record State : Type := mkState {
  heap : Heap;
  osArgs : list string;
  events : list Event
}.

(** ** A monad for code that exits or panics *)

Inductive Res (A : Type) : Type :=
| Ok (a : A)
| Exited (code : Z)        (* os.Exit(code) *)
| Panicked (p : panic).    (* an unrecovered panic leaves the function *)
Arguments Ok {A} a.
Arguments Exited {A} code.
Arguments Panicked {A} p.

Definition M (A : Type) : Type := State -> Res A * State.

Definition ret {A : Type} (a : A) : M A := fun s => (Ok a, s).

Definition bind {A B : Type} (m : M A) (k : A -> M B) : M B :=
  fun s =>
    match m s with
    | (Ok a, s') => k a s'
    | (Exited c, s') => (Exited c, s')
    | (Panicked p, s') => (Panicked p, s')
    end.

Declare Scope go_scope.
Delimit Scope go_scope with go.
Notation "x <- m ;; k" := (bind m (fun x => k))
  (at level 100, m at next level, right associativity) : go_scope.
Notation "m ;; k" := (bind m (fun _ => k))
  (at level 100, right associativity) : go_scope.
Local Open Scope go_scope.

Definition os_Exit {A : Type} (code : Z) : M A := fun s => (Exited code, s).
Definition throw {A : Type} (p : panic) : M A := fun s => (Panicked p, s).

Definition get_heap : M Heap := fun s => (Ok (heap s), s).
Definition put_heap (h : Heap) : M unit :=
  fun s => (Ok tt, mkState h (osArgs s) (events s)).
Definition get_osArgs : M (list string) := fun s => (Ok (osArgs s), s).
Definition put_osArgs (a : list string) : M unit :=
  fun s => (Ok tt, mkState (heap s) a (events s)).
Definition emit (e : Event) : M unit :=
  fun s => (Ok tt, mkState (heap s) (osArgs s) (events s ++ [e])).

(** [if c { m }] *)
Definition when (c : bool) (m : M unit) : M unit := if c then m else ret tt.

(** [a[1:]], which panics on an empty [a]. *)
Definition from1 (a : list string) : M (list string) :=
  match a with
  | [] => throw OutOfRange
  | _ :: rest => ret rest
  end.

Definition is_nil {A : Type} (o : option A) : bool :=
  match o with
  | None => true
  | Some _ => false
  end.

(** ** bonzai.go *)

(** [func Exit()] (bonzai.go:203) *)
Definition Exit (g : Globals) : M unit :=
  if DoNotExit g then ret tt else os_Exit 0.

(** [func ExitError(err ...interface{})] (bonzai.go:212), on an error
    value: printed unless its text is empty. *)
Definition ExitError (g : Globals) (e : error) : M unit :=
  when (negb (error_is_blank e)) (emit (EvLog e));;
  if DoNotExit g then ret tt else os_Exit 1.

(** [var TrapPanic] (bonzai.go:272), as deferred by [Cmd.Run]: it acts only
    when the body panics. *)
Definition TrapPanic {A : Type} (g : Globals) (body : M A) : M A :=
  fun s =>
    match body s with
    | (Panicked p, s') =>
        if AllowPanic g then (Panicked p, s')
        else (Exited 1,
              mkState (heap s') (osArgs s') (events s' ++ [EvLogPanic p]))
    | r => r
    end.

(** ** Strings of bytes read as UTF-8 (unicode/utf8, unicode, strings)

    A Go string is a sequence of bytes.  [strings.Fields] reads it rune by
    rune, as a [range] loop over the string does: each step decodes the
    UTF-8 encoding at the head of what is left. *)

Definition rune : Type := Z.

(** [utf8.RuneError], U+FFFD *)
Definition RuneError : rune := 65533.

Definition byte (c : ascii) : Z := Z.of_nat (nat_of_ascii c).

(** [lo <= b && b <= hi] *)
Definition between (lo hi b : Z) : bool := (lo <=? b) && (b <=? hi).

(** [utf8.DecodeRuneInString]: the rune at the head of [s] and its width in
    bytes.  A byte below 0x80 is its own rune.  The bytes 0xC2-0xDF start
    an encoding of two bytes, 0xE0-0xEF of three and 0xF0-0xF4 of four;
    the bytes after the first are in 0x80-0xBF, the second more narrowly
    after 0xE0, 0xED, 0xF0 and 0xF4 (no overlong form, no surrogate,
    nothing above U+10FFFF).  Anything else, or an encoding cut short by
    the end of the string, is [RuneError] of width 1. *)
Definition DecodeRuneInString (s : string) : rune * nat :=
  match s with
  | EmptyString => (RuneError, 0%nat)
  | String c0 t =>
      let s0 := byte c0 in
      if s0 <? 128 then (s0, 1%nat)
      else if s0 <? 194 then (RuneError, 1%nat)
      else if s0 <? 224 then
        match t with
        | String c1 _ =>
            let s1 := byte c1 in
            if between 128 191 s1
            then (Z.lor (Z.shiftl (Z.land s0 31) 6) (Z.land s1 63), 2%nat)
            else (RuneError, 1%nat)
        | _ => (RuneError, 1%nat)
        end
      else if s0 <? 240 then
        match t with
        | String c1 (String c2 _) =>
            let s1 := byte c1 in
            let s2 := byte c2 in
            if between (if s0 =? 224 then 160 else 128)
                       (if s0 =? 237 then 159 else 191) s1
            then
              if between 128 191 s2
              then (Z.lor (Z.lor (Z.shiftl (Z.land s0 15) 12)
                                 (Z.shiftl (Z.land s1 63) 6))
                          (Z.land s2 63), 3%nat)
              else (RuneError, 1%nat)
            else (RuneError, 1%nat)
        | _ => (RuneError, 1%nat)
        end
      else if s0 <? 245 then
        match t with
        | String c1 (String c2 (String c3 _)) =>
            let s1 := byte c1 in
            let s2 := byte c2 in
            let s3 := byte c3 in
            if between (if s0 =? 240 then 144 else 128)
                       (if s0 =? 244 then 143 else 191) s1
            then
              if between 128 191 s2
              then
                if between 128 191 s3
                then (Z.lor (Z.lor (Z.lor (Z.shiftl (Z.land s0 7) 18)
                                          (Z.shiftl (Z.land s1 63) 12))
                                   (Z.shiftl (Z.land s2 63) 6))
                            (Z.land s3 63), 4%nat)
                else (RuneError, 1%nat)
              else (RuneError, 1%nat)
            else (RuneError, 1%nat)
        | _ => (RuneError, 1%nat)
        end
      else (RuneError, 1%nat)
  end.

(** [unicode.IsSpace]: up to U+00FF the runes tab, line feed, vertical tab,
    form feed, carriage return, space, U+0085 and U+00A0; above, the rest
    of the White_Space property: U+1680, U+2000 to U+200A, U+2028, U+2029,
    U+202F, U+205F and U+3000. *)
Definition IsSpace (r : rune) : bool :=
  if r <=? 255 then
    between 9 13 r || (r =? 32) || (r =? 133) || (r =? 160)
  else
    (r =? 5760) || between 8192 8202 r || between 8232 8233 r ||
    (r =? 8239) || (r =? 8287) || (r =? 12288).

(** [s[:n]] and [s[n:]], for [n] up to the length of [s] *)
Fixpoint take (n : nat) (s : string) : string :=
  match n, s with
  | S k, String c t => String c (take k t)
  | _, _ => EmptyString
  end.

Fixpoint drop (n : nat) (s : string) : string :=
  match n, s with
  | S k, String _ t => drop k t
  | _, _ => s
  end.

(** [for _, r := range s]: the runes of [s] in order, each with the bytes
    it was decoded from.  Each step takes one byte at least, so the length
    of [s] is fuel enough. *)
Fixpoint runes_from (fuel : nat) (s : string) : list (rune * string) :=
  match fuel with
  | O => []
  | S fuel' =>
      match s with
      | EmptyString => []
      | _ =>
          let '(r, width) := DecodeRuneInString s in
          (r, take width s) :: runes_from fuel' (drop width s)
      end
  end.

Definition runes (s : string) : list (rune * string) :=
  runes_from (String.length s) s.

(** The loop of [strings.FieldsFunc]: [start] is the field being read, if
    one has been started; a rune that satisfies [f] ends it, any other rune
    starts or extends it, and the end of the string ends it. *)
Fixpoint spans (f : rune -> bool) (start : option string)
    (rs : list (rune * string)) : list string :=
  match rs with
  | [] => match start with Some w => [w] | None => [] end
  | (r, bytes) :: rs' =>
      if f r then
        match start with
        | Some w => w :: spans f None rs'
        | None => spans f None rs'
        end
      else
        spans f (Some (match start with
                       | Some w => (w ++ bytes)%string
                       | None => bytes
                       end)) rs'
  end.

(** [strings.FieldsFunc] *)
Definition FieldsFunc (f : rune -> bool) (s : string) : list string :=
  spans f None (runes s).

(** [strings.Fields]: [FieldsFunc(s, unicode.IsSpace)].  For a string of
    ASCII bytes only the library takes a path of its own that splits at
    the six ASCII white space bytes, which is what [IsSpace] holds of those
    bytes. *)
Definition Fields (s : string) : list string := FieldsFunc IsSpace s.

(** [line[len(line)-1]] *)
Fixpoint last_byte (s : string) : option ascii :=
  match s with
  | EmptyString => None
  | String c EmptyString => Some c
  | String _ s' => last_byte s'
  end.

(** [func ArgsFrom(line string) []string] (bonzai.go:235) *)
Definition ArgsFrom (line : string) : list string :=
  if String.eqb line "" then []
  else
    let args := Fields line in
    match last_byte line with
    | Some c => if Ascii.eqb c " " then (args ++ [""])%list else args
    | None => args
    end.

(** The rewrite of [os.Args] at the head of [Cmd.Run] (cmd.go:173-182).  A
    key that is absent and a key bound to the nil slice both read as nil. *)
Definition expandArgs (al : gmap string (slice string))
    (osargs : list string) : list string :=
  match osargs with
  | a0 :: a1 :: rest =>
      match al !! a1 with
      | Some (Some alias) => a0 :: (alias ++ rest)%list
      | _ => osargs
      end
  | _ => osargs
  end.

(** ** Library functions the package calls *)

(** [set.Minus] (rwxrob/structs): the elements of [l] that are not in
    [min], in the order of [l]. *)
Definition Minus (l min : list string) : list string :=
  List.filter (fun i => negb (List.existsb (fun n => String.eqb n i) min)) l.

(** [filt.HasPrefix] (rwxrob/fn): the elements of [l] that start with
    [pre], in the order of [l]. *)
Definition HasPrefix (l : list string) (pre : string) : list string :=
  List.filter (fun i => String.prefix pre i) l.

Fixpoint insert_sorted (s : string) (l : list string) : list string :=
  match l with
  | [] => [s]
  | t :: l' => if String.leb s t then s :: l else t :: insert_sorted s l'
  end.

(** [maps.KeysWithPrefix] (rwxrob/fn): the keys that start with [pre], in
    sorted order. *)
Definition KeysWithPrefix {V : Type} (m : gmap string V) (pre : string)
    : list string :=
  List.fold_right insert_sorted []
    (List.filter (fun k => String.prefix pre k) (List.map fst (map_to_list m))).

(** ** comp/standard.go *)

(** [func Standard(x bonzai.Command, args ...string) []string]
    (standard.go:25).  The second [len(args) == 0] test of the source is
    never reached with an empty [args]. *)
Definition Standard (h : Heap) (x : ptr) (args : list string) : list string :=
  match Completer (h x) with
  | Some c => c x args
  | None =>
      match args with
      | [] => [Name (h x)]
      | a0 :: _ =>
          let list := (CmdNames h x ++ elems (Params (h x)))%list in
          let list := Minus list (elems (Hidden (h x))) in
          HasPrefix list a0
      end
  end.

(** ** Errors of a node (cmd.go:251-273) *)

(** [func (x *Cmd) UsageError() error] *)
Definition UsageError (g : Globals) (h : Heap) (x : ptr) : error :=
  let usage :=
    match UsageFunc (h x) with
    | Some f => f x
    | None => Z_UsageFunc g h x
    end in
  ErrUsage (UsageText g) (Name (h x)) usage.

(** [func (x *Cmd) ReqConfError() error] *)
Definition ReqConfError (h : Heap) (x : ptr) : error := ErrReqConf (Name (h x)).

(** [func (x *Cmd) Unimplemented() error] *)
Definition Unimplemented (h : Heap) (x : ptr) : error :=
  ErrUnimplemented (Name (h x)).

(** ** [Cmd.Run] (cmd.go:167) *)

(** [cmd.Call(cmd, args...)]: calling a nil func value panics. *)
Definition invoke (cmd : ptr) (args : list string) : M (option string) :=
  h <- get_heap;;
  match Call (h cmd) with
  | None => throw NilCall
  | Some f => emit (EvCall cmd args);; ret (f cmd args)
  end.

(** The completion context (cmd.go:185-206). *)
Definition complete (g : Globals) (x : ptr) : M unit :=
  let lineargs := ArgsFrom (COMP_LINE g) in
  let list :=
    match lineargs with
    | [_; a1] => KeysWithPrefix (Z_Aliases g) a1
    | _ => []
    end in
  rest <- from1 lineargs;;
  h <- get_heap;;
  let '(h1, cmd, args) := Seek h x rest in
  put_heap h1;;
  when (is_nil (Completer (h1 cmd)))
    (let list := (list ++ Standard h1 cmd args)%list in
     when ((len list =? 1) && (len lineargs =? 2))
       (match list with
        | l0 :: _ =>
            match Z_Aliases g !! l0 with
            | Some v =>
                emit (EvStdout [String.concat " " (EscAll g (elems v))]);;
                Exit g
            | None => ret tt
            end
        | [] => ret tt
        end);;
     emit (EvStdout list);;
     Exit g);;
  match Completer (h1 cmd) with
  | None => throw NilCall
  | Some c =>
      emit (EvCompleter cmd args);;
      emit (EvStdout (c cmd args));;
      Exit g
  end.

(** The default to the first command of a node without [Call]
    (cmd.go:214-226): the node the run goes on with. *)
Definition default_command (g : Globals) (x cmd0 : ptr) : M ptr :=
  h1 <- get_heap;;
  match Call (h1 cmd0) with
  | Some _ => ret cmd0
  | None =>
      match elems (Commands (h1 cmd0)) with
      | fcmd :: _ =>
          when (is_nil (Call (h1 fcmd))) (ExitError g ErrDefaultCall);;
          put_heap (store h1 fcmd (set_Caller (Some cmd0) (h1 fcmd)));;
          ret fcmd
      | [] => ExitError g (Unimplemented h1 x);; ret cmd0
      end
  end.

(** The checks on [cmd] and the call of its action (cmd.go:228-243). *)
Definition delegate (g : Globals) (x cmd : ptr) (args : list string)
    : M unit :=
  h2 <- get_heap;;
  when (len args <? MinArgs (h2 cmd)) (ExitError g (UsageError g h2 cmd));;
  when (ReqConf (h2 x) && is_nil (Conf g))
    (ExitError g (ReqConfError h2 cmd));;
  when (is_nil (Caller (h2 cmd)))
    (put_heap (store h2 cmd (set_Caller (Some x) (h2 cmd))));;
  err <- invoke cmd args;;
  match err with
  | Some msg => ExitError g (ErrMethod msg)
  | None => ret tt
  end;;
  Exit g.

(** Resolution and delegation (cmd.go:208-243).  [Seek] returns a node
    always, so the test of [cmd == nil] never succeeds. *)
Definition dispatch (g : Globals) (x : ptr) : M unit :=
  a <- get_osArgs;;
  rest <- from1 a;;
  h <- get_heap;;
  let '(h1, cmd0, args) := Seek h x rest in
  put_heap h1;;
  cmd <- default_command g x cmd0;;
  delegate g x cmd args.

(** [func (x *Cmd) Run()].  [cacheSections] writes only the section cache,
    which is not part of the model. *)
Definition Run (g : Globals) (x : ptr) : M unit :=
  TrapPanic g
    (h <- get_heap;;
     put_heap (cacheAliases h x);;
     a <- get_osArgs;;
     put_osArgs (expandArgs (Z_Aliases g) a);;
     when (negb (String.eqb (COMP_LINE g) "")) (complete g x);;
     dispatch g x).

(** ** Multicall [Run] (bonzai.go:155) *)

(** The loop over [v[1:]]: a value that is no string is reported and, when
    the process goes on, appended as the empty string. *)
Fixpoint prepended (g : Globals) (vs : list any) : M (list string) :=
  match vs with
  | [] => ret []
  | a :: vs' =>
      s <- match a with
           | AnyString s => ret s
           | _ => ExitError g ErrOnlyStrings;; ret ""
           end;;
      r <- prepended g vs';;
      ret (s :: r)
  end.

(** [func Run()] *)
Definition Z_Run (g : Globals) : M unit :=
  match Z_Commands g !! ExeName g with
  | Some v =>
      when (len v <? 1) (ExitError g ErrMulticallMissing);;
      match v with
      | [] => throw OutOfRange
      | v0 :: vrest =>
          c <- match v0 with
               | AnyCmd p => ret (Some p)
               | _ => ExitError g ErrFirstNotCmd;; ret None
               end;;
          match c with
          | None => throw NilDeref
          | Some cmd =>
              h <- get_heap;;
              args <- (if 1 <? len v then
                         a <- get_osArgs;;
                         rest <- from1 a;;
                         pre <- prepended g vrest;;
                         ret (Name (h cmd) :: pre ++ rest)%list
                       else ret [Name (h cmd)]);;
              put_osArgs args;;
              Run g cmd;;
              Exit g
          end
      end
  | None => ret tt
  end;;
  ExitError g (ErrUnmapped (ExeName g)).

(** ** [Cmd.Q] (cmd.go:418)

    The result is the events of the call and the string returned, or [None]
    when the walk of [Path] is still going after [fuel] steps.  The log line
    has the text of [ReqConfError]. *)
Definition Q (g : Globals) (fuel : nat) (h : Heap) (x : ptr) (q : string)
    : option (list Event * string) :=
  match Conf g with
  | None => Some ([EvLog (ErrReqConf (Name (h x)))], "")
  | Some query =>
      match PathString fuel h x with
      | None => None
      | Some p =>
          let path := (p ++ "." ++ q)%string in
          Some ([EvQuery path], query path)
      end
  end.

(** ** More of cmd.go and bonzai.go *)

(** [c.Commands = cs] *)
Definition set_Commands (cs : slice ptr) (c : Cmd) : Cmd :=
  mkCmd (Name c) (Aliases c) cs (Params c) (Hidden c) (Completer c)
        (UsageFunc c) (Caller c) (Call c) (MinArgs c) (MinParm c) (MaxParm c)
        (ReqConf c) (_aliases c).

(** [func (x *Cmd) Add(name string, aliases ...string) *Cmd] (cmd.go:284).
    [c] is the address of the node that the composite literal allocates, and
    is what the call returns; [aliases] is nil when none is passed.
    Appending to a nil [Commands] gives a slice that is not nil. *)
Definition Add (h : Heap) (x c : ptr) (name : string) (aliases : slice string)
    : Heap :=
  let h1 := store h c (mkCmd name aliases None None None None None None
                             None 0 0 0 false None) in
  store h1 x (set_Commands (Some (elems (Commands (h1 x)) ++ [c])) (h1 x)).

(** The fields that [Legal] reads besides [Name]. *)
Record Notice : Type := mkNotice {
  Version : string;
  Copyright : string;
  License : string
}.

(** [len(s) > 0] *)
Definition filled (s : string) : bool := negb (String.eqb s "").

(** The line feed. *)
Definition LF : string := String "010" "".

(** [func (x *Cmd) Legal() string] (cmd.go:111), on the name and the
    notice of the node: the cases of the switch in their order. *)
Definition Legal (name : string) (n : Notice) : string :=
  if filled (Copyright n) && negb (filled (License n))
     && negb (filled (Version n))
  then (name ++ " " ++ Copyright n)%string
  else if filled (Copyright n) && filled (License n) && filled (Version n)
  then (name ++ " (" ++ Version n ++ ") " ++ Copyright n ++ LF ++ "License "
        ++ License n)%string
  else if filled (Copyright n) && filled (License n)
  then (name ++ " " ++ Copyright n ++ LF ++ "License " ++ License n)%string
  else if filled (Copyright n) && filled (Version n)
  then (name ++ " (" ++ Version n ++ ") " ++ Copyright n)%string
  else if filled (Copyright n)
  then (name ++ LF ++ Copyright n)%string
  else "".

(** [func ArgsOrIn(args []string) string] (bonzai.go:251); [input] is what
    [term.Read] reads from standard input. *)
Definition ArgsOrIn (input : string) (args : list string) : string :=
  match args with
  | [] => input
  | _ => String.concat " " args
  end.

(** * Vocabulary of the statements *)

(** [c] declares [n] among its [Aliases]. *)
Definition carries (h : Heap) (n : string) (c : ptr) : bool :=
  List.existsb (String.eqb n) (elems (Aliases (h c))).

(** [c] is a child of [x] whose [Name] or one of whose [Aliases] is [t]. *)
Definition answers (h : Heap) (x : ptr) (t : string) (c : ptr) : Prop :=
  In c (elems (Commands (h x))) /\
  (Name (h c) = t \/ In t (elems (Aliases (h c)))).

(** [toks] spells a path of child names or aliases from [x] down to [y]. *)
Inductive spells (h : Heap) : ptr -> list string -> ptr -> Prop :=
| spells_nil : forall x, spells h x [] x
| spells_cons : forall x t c ts y,
    answers h x t c -> spells h c ts y -> spells h x (t :: ts) y.

(** [toks] spells a path of child names from [x] down to [y], each name
    borne by one child only of the node it is read at. *)
Inductive named_path (h : Heap) : ptr -> list string -> ptr -> Prop :=
| named_nil : forall x, named_path h x [] x
| named_cons : forall x t c ts y,
    In c (elems (Commands (h x))) -> Name (h c) = t ->
    (forall c', In c' (elems (Commands (h x))) -> Name (h c') = t -> c' = c) ->
    named_path h c ts y -> named_path h x (t :: ts) y.

(** [toks] is resolved token by token from [x] down to [y], each token by
    [Resolve] at the node reached so far. *)
Inductive walk (h : Heap) : ptr -> list string -> ptr -> Prop :=
| walk_nil : forall x, walk h x [] x
| walk_cons : forall x t c ts y,
    Resolve h x t = Some c -> walk h c ts y -> walk h x (t :: ts) y.

(** [h'] holds the tree of [h]: the two stores differ at most in [Caller]
    references and alias caches. *)
Definition same_tree (h h' : Heap) : Prop :=
  forall p,
    Name (h' p) = Name (h p) /\ Aliases (h' p) = Aliases (h p) /\
    Commands (h' p) = Commands (h p) /\ Call (h' p) = Call (h p) /\
    MinArgs (h' p) = MinArgs (h p) /\ ReqConf (h' p) = ReqConf (h p) /\
    UsageFunc (h' p) = UsageFunc (h p).

(** The arguments after the program name once [Cmd.Run] has rewritten
    [os.Args]. *)
Definition shorthand (al : gmap string (slice string)) (rest : list string)
    : list string :=
  List.tl (expandArgs al ("" :: rest)).

(** The node and the residual arguments of a run on [os.Args = prog :: rest]
    outside of a completion context. *)
Definition resolved (g : Globals) (h : Heap) (x : ptr) (rest : list string)
    : ptr * list string :=
  let '(_, cmd0, args) :=
    Seek (cacheAliases h x) x (shorthand (Z_Aliases g) rest) in
  (cmd0, args).

(** The node a run delegates to once [Seek] has returned [cmd0]: the node
    itself when it has an action, else its first child when that has one. *)
Definition effective (h : Heap) (cmd0 : ptr) : option ptr :=
  match Call (h cmd0) with
  | Some _ => Some cmd0
  | None =>
      match elems (Commands (h cmd0)) with
      | fcmd :: _ =>
          match Call (h fcmd) with
          | Some _ => Some fcmd
          | None => None
          end
      | [] => None
      end
  end.

Definition is_call (e : Event) : bool :=
  match e with
  | EvCall _ _ => true
  | _ => false
  end.

(** What [Cmd.Run] logs once an action has returned [err]. *)
Definition after_call (err : option string) : list Event :=
  match err with
  | Some msg => if String.eqb msg "" then [] else [EvLog (ErrMethod msg)]
  | None => []
  end.

(** No event of [evs] is the call of an action. *)
Definition no_call (evs : list Event) : bool :=
  List.forallb (fun e => negb (is_call e)) evs.

(** The rune is white space. *)
Definition is_space (r : rune * string) : bool := IsSpace (fst r).

(** The bytes that the runes [rs] were decoded from. *)
Definition bytes_of (rs : list (rune * string)) : string :=
  String.concat "" (map snd rs).

(** The line ends in a white space rune. *)
Definition ends_in_space (line : string) : bool :=
  match rev (runes line) with
  | r :: _ => is_space r
  | [] => false
  end.

(** The line ends in the space byte, U+0020. *)
Definition ends_in_blank (line : string) : bool :=
  match last_byte line with
  | Some c => Ascii.eqb c " "
  | None => false
  end.

(** No rune of [s] is white space. *)
Definition space_free (s : string) : bool :=
  forallb (fun r => negb (is_space r)) (runes s).

(** [fs] lays out the runes [rs] in fields: white space is skipped, and a
    field is the bytes of a run of runes that are not white space, as long
    as it can be: it ends at the next white space rune or at the end. *)
Inductive layout : list (rune * string) -> list string -> Prop :=
| layout_nil : layout [] []
| layout_space : forall r rs fs,
    is_space r = true -> layout rs fs -> layout (r :: rs) fs
| layout_last : forall word,
    word <> [] -> Forall (fun r => is_space r = false) word ->
    layout word [bytes_of word]
| layout_field : forall word r rs fs,
    word <> [] -> Forall (fun r => is_space r = false) word ->
    is_space r = true -> layout rs fs ->
    layout (word ++ r :: rs) (bytes_of word :: fs).

(** [toks] is resolved token by token from [x], by [Resolve], through the
    nodes [nodes] in this order. *)
Inductive trail (h : Heap) : ptr -> list string -> list ptr -> Prop :=
| trail_nil : forall x, trail h x [] []
| trail_cons : forall x t c ts nodes,
    Resolve h x t = Some c -> trail h c ts nodes ->
    trail h x (t :: ts) (c :: nodes).

(** The outcome of a run that the settings allow: it returns only with
    exits disabled, exits with status 0 or 1 only, and with exits disabled
    exits only as [TrapPanic] does; a panic leaves it only when panics are
    let through. *)
Definition allowed {A : Type} (g : Globals) (r : Res A) : Prop :=
  match r with
  | Ok _ => DoNotExit g = true
  | Exited code =>
      (code = 0 \/ code = 1) /\
      (DoNotExit g = true -> code = 1 /\ AllowPanic g = false)
  | Panicked _ => AllowPanic g = true
  end.

(** Every exit of [m] is with a status that satisfies [Q]. *)
Definition exits_with {A : Type} (Q : Z -> Prop) (m : M A) : Prop :=
  forall s,
    match fst (m s) with
    | Exited code => Q code
    | _ => True
    end.

(** [m] returns only when exits are disabled. *)
Definition returns_when_off {A : Type} (g : Globals) (m : M A) : Prop :=
  forall s a, fst (m s) = Ok a -> DoNotExit g = true.

(** ** Readings of the specification that the code does not follow *)

(** Among the children that declare an alias the first-declared answers
    for it. *)
Definition first_alias_answers : Prop :=
  forall h x n pre c post,
    Commands (h x) = Some (pre ++ c :: post) ->
    (forall p, In p (pre ++ c :: post) -> Name (h p) <> n) ->
    carries h n c = true ->
    (forall p, In p pre -> carries h n p = false) ->
    Resolve (cacheAliases h x) x n = Some c.

(** The empty trailing token marks a line that ends in any white space. *)
Definition trailing_token_for_any_space : Prop :=
  forall line,
    ArgsFrom line = Fields line ++ (if ends_in_space line then [""] else []).


(** A shorthand alias resolves as the literal arguments it stands for
    would, whatever they are. *)
Definition shorthand_resolves_as_literal : Prop :=
  forall g h x a ts r,
    Z_Aliases g !! a = Some (Some ts) ->
    resolved g h x (a :: r) = resolved g h x (ts ++ r).

(** * Sample trees and settings *)

(** The store holding [l] at addresses 0, 1, ...; other addresses hold
    nodes without content. *)
Definition heap_of (l : list Cmd) : Heap := fun p => nth p l (newCmd "").

(** An action that succeeds. *)
Definition succeed : Method := fun _ _ => None.

Definition node (n : string) (al : slice string) (cs : slice ptr)
    (call : option Method) (minargs : Z) (reqconf : bool) : Cmd :=
  mkCmd n al cs None None None None None call minargs 0 0 reqconf None.

(** Settings of a plain run: no completion context, nothing registered,
    exits enabled. *)
Definition plain : Globals :=
  mkGlobals "" "app" ∅ ∅ None "usage" (fun _ _ => "...") false false
            (fun l => l).

Definition with_Aliases (al : gmap string (slice string)) (g : Globals)
    : Globals :=
  mkGlobals (COMP_LINE g) (ExeName g) (Z_Commands g) al (Conf g) (UsageText g)
            (Z_UsageFunc g) (DoNotExit g) (AllowPanic g) (EscAll g).


Definition with_Commands (cs : gmap string (list any)) (exe : string)
    (g : Globals) : Globals :=
  mkGlobals (COMP_LINE g) exe cs (Z_Aliases g) (Conf g) (UsageText g)
            (Z_UsageFunc g) (DoNotExit g) (AllowPanic g) (EscAll g).

Definition with_Conf (c : option (string -> string)) (g : Globals) : Globals :=
  mkGlobals (COMP_LINE g) (ExeName g) (Z_Commands g) (Z_Aliases g) c
            (UsageText g) (Z_UsageFunc g) (DoNotExit g) (AllowPanic g)
            (EscAll g).

(** Two siblings declare the same alias. *)
Definition twins : Heap :=
  heap_of [ node "app" None (Some [1; 2]%nat) None 0 false;
            node "alpha" (Some ["x"]) None (Some succeed) 0 false;
            node "beta" (Some ["x"]) None (Some succeed) 0 false ].

(** A grandchild with an alias. *)
Definition nested : Heap :=
  heap_of [ node "app" None (Some [1%nat]) None 0 false;
            node "a" None (Some [2%nat]) (Some succeed) 0 false;
            node "build" (Some ["b"]) None (Some succeed) 0 false ].

(** A root with the children build and test. *)
Definition builder : Heap :=
  heap_of [ node "app" None (Some [1; 2]%nat) None 0 false;
            node "build" (Some ["b"]) None (Some succeed) 0 false;
            node "test" None None (Some succeed) 0 false ].

(** A root with the children status and st. *)
Definition vcs : Heap :=
  heap_of [ node "app" None (Some [1; 2]%nat) None 0 false;
            node "status" None None (Some succeed) 0 false;
            node "st" None None (Some succeed) 0 false ].

Definition vcs_aliases : gmap string (slice string) :=
  {[ "co" := Some ["st"]; "st" := Some ["status"] ]}.


(** A node with neither action nor children. *)
Definition hollow : Heap :=
  heap_of [ node "app" None None None 0 false ].

(** A leaf that requires the configurer under a root that does not. *)
Definition needy : Heap :=
  heap_of [ node "app" None (Some [1%nat]) None 0 false;
            node "get" None None (Some succeed) 0 true ].

(** A root with an action of its own. *)
Definition lister : Heap :=
  heap_of [ node "ls" None None (Some succeed) 0 false ].

(** The executable ls mapped to the root alone, and to the root with one
    string to prepend. *)
Definition ls_bare : Globals :=
  with_Commands {[ "ls" := [AnyCmd 0%nat] ]} "ls" plain.

Definition ls_all : Globals :=
  with_Commands {[ "ls" := [AnyCmd 0%nat; AnyString "-a"] ]} "ls" plain.

(** A configurer that answers every query with its path. *)
Definition echo : Globals := with_Conf (Some (fun path => path)) plain.

(** A completion context: the line app b is being completed. *)
Definition completing : Globals :=
  mkGlobals "app b" "app" ∅ ∅ None "usage" (fun _ _ => "...") false false
            (fun l => l).

(** The executable ls mapped to the root and a value that is no string. *)
Definition ls_odd : Globals :=
  with_Commands {[ "ls" := [AnyCmd 0%nat; AnyOther] ]} "ls" plain.

(** A root that requires the configurer, above a leaf that does not. *)
Definition guarded : Heap :=
  heap_of [ node "app" None (Some [1%nat]) None 0 true;
            node "get" None None (Some succeed) 0 false ].

(** A root with the children build and test, the parameter bare, and test
    hidden. *)
Definition shy : Heap :=
  heap_of [ mkCmd "app" None (Some [1; 2]%nat) (Some ["bare"]) (Some ["test"])
                  None None None None 0 0 0 false None;
            node "build" None None (Some succeed) 0 false;
            node "test" None None (Some succeed) 0 false ].

(** The line foo followed by a tab. *)
Definition tabbed : string := String "f" (String "o" (String "o" (String "009" ""))).

(** The words a and b with a no-break space, U+00A0, between them: the
    bytes 0xC2 0xA0. *)
Definition unbroken : string :=
  String "a" (String "194" (String "160" (String "b" ""))).

(** The ideographic space, U+3000: the bytes 0xE3 0x80 0x80. *)
Definition wide_space : string :=
  String "227" (String "128" (String "128" "")).

(** * Properties *)

(** ** The store *)

Lemma store_same (h : Heap) (p : ptr) (c : Cmd) : store h p c p = c.
Proof. unfold store. now rewrite Nat.eqb_refl. Qed.

Lemma store_other (h : Heap) (p q : ptr) (c : Cmd) :
  q <> p -> store h p c q = h q.
Proof.
  intros Hne. unfold store.
  destruct (Nat.eqb_spec q p); [contradiction | reflexivity].
Qed.

Lemma same_tree_refl (h : Heap) : same_tree h h.
Proof. intros p. repeat split. Qed.

Lemma same_tree_trans (h1 h2 h3 : Heap) :
  same_tree h1 h2 -> same_tree h2 h3 -> same_tree h1 h3.
Proof.
  intros H12 H23 p.
  destruct (H12 p) as (?&?&?&?&?&?&?), (H23 p) as (?&?&?&?&?&?&?).
  repeat split; congruence.
Qed.

Lemma same_tree_set_Caller (h : Heap) (p : ptr) (c : option ptr) :
  same_tree h (store h p (set_Caller c (h p))).
Proof.
  intros q. unfold store.
  destruct (Nat.eqb_spec q p) as [->|]; repeat split.
Qed.

Lemma same_tree_cacheAliases (h : Heap) (x : ptr) :
  same_tree h (cacheAliases h x).
Proof.
  intros q. unfold cacheAliases, store.
  destruct (Commands (h x));
    destruct (Nat.eqb_spec q x) as [->|]; repeat split.
Qed.

Lemma aliases_set_Caller (h : Heap) (p q : ptr) (c : option ptr) :
  _aliases (store h p (set_Caller c (h p)) q) = _aliases (h q).
Proof. unfold store. now destruct (Nat.eqb_spec q p) as [->|]. Qed.

Lemma find_pointwise {A : Type} (f g : A -> bool) (l : list A) :
  (forall a, f a = g a) -> List.find f l = List.find g l.
Proof.
  intros Hfg. induction l as [|a l IH]; simpl; [reflexivity|].
  now rewrite Hfg, IH.
Qed.

(** [Resolve] reads names, children and the alias cache, and nothing else. *)
Lemma Resolve_same_tree (h h' : Heap) (x : ptr) (n : string) :
  same_tree h h' -> _aliases (h' x) = _aliases (h x) ->
  Resolve h' x n = Resolve h x n.
Proof.
  intros Hs Ha. unfold Resolve.
  destruct (Hs x) as (_ & _ & -> & _).
  destruct (Commands (h x)) as [cs|]; [|reflexivity].
  rewrite (find_pointwise (fun c => String.eqb n (Name (h' c)))
                          (fun c => String.eqb n (Name (h c)))).
  - now rewrite Ha.
  - intros c. destruct (Hs c) as (-> & _). reflexivity.
Qed.

Lemma Resolve_set_Caller (h : Heap) (p : ptr) (c : option ptr) (x : ptr)
    (n : string) :
  Resolve (store h p (set_Caller c (h p))) x n = Resolve h x n.
Proof.
  apply Resolve_same_tree.
  - apply same_tree_set_Caller.
  - apply aliases_set_Caller.
Qed.

(** ** The alias cache *)

Lemma existsb_eqb_In (n : string) (l : list string) :
  List.existsb (String.eqb n) l = true <-> In n l.
Proof.
  rewrite List.existsb_exists. split.
  - intros (a & Hin & Heq). apply String.eqb_eq in Heq. now subst.
  - intros Hin. exists n. split; [assumption | apply String.eqb_refl].
Qed.

Lemma alias_entries_lookup (c : ptr) (al : list string)
    (m : gmap string ptr) (n : string) :
  alias_entries c al m !! n =
  if List.existsb (String.eqb n) al then Some c else m !! n.
Proof.
  unfold alias_entries. revert m.
  induction al as [|a al IH]; intros m; simpl; [reflexivity|].
  rewrite IH. destruct (List.existsb (String.eqb n) al).
  - now rewrite orb_true_r.
  - rewrite orb_false_r. destruct (String.eqb_spec n a) as [->|Hne].
    + apply lookup_insert_eq.
    + apply lookup_insert_ne. congruence.
Qed.

Lemma cache_child_lookup (h : Heap) (m : gmap string ptr) (c : ptr)
    (n : string) :
  cache_child h m c !! n = if carries h n c then Some c else m !! n.
Proof.
  unfold cache_child, carries.
  destruct (Aliases (h c)) as [al|]; simpl; [|reflexivity].
  apply alias_entries_lookup.
Qed.

Lemma cache_absent (h : Heap) (cs : list ptr) (m : gmap string ptr)
    (n : string) :
  (forall c, In c cs -> carries h n c = false) ->
  fold_left (cache_child h) cs m !! n = m !! n.
Proof.
  revert m. induction cs as [|c cs IH]; intros m Hno; simpl; [reflexivity|].
  rewrite IH by (intros; apply Hno; now right).
  rewrite cache_child_lookup, (Hno c) by now left. reflexivity.
Qed.

(** The cache keeps, for each alias, the last child that declares it. *)
Lemma cache_last (h : Heap) (pre post : list ptr) (c : ptr)
    (m : gmap string ptr) (n : string) :
  carries h n c = true ->
  (forall p, In p post -> carries h n p = false) ->
  fold_left (cache_child h) (pre ++ c :: post) m !! n = Some c.
Proof.
  intros Hc Hpost. rewrite fold_left_app. simpl.
  rewrite cache_absent by assumption.
  now rewrite cache_child_lookup, Hc.
Qed.

Lemma alias_table_fold (h : Heap) (cs : list ptr) :
  alias_table h cs = fold_left (cache_child h) cs ∅.
Proof. reflexivity. Qed.

Lemma cacheAliases_table (h : Heap) (x : ptr) (cs : list ptr) :
  Commands (h x) = Some cs ->
  _aliases (cacheAliases h x x) = Some (alias_table h cs).
Proof.
  intros Hcs. unfold cacheAliases. rewrite Hcs, store_same. reflexivity.
Qed.

Lemma find_first {A : Type} (f : A -> bool) (pre post : list A) (c : A) :
  (forall p, In p pre -> f p = false) -> f c = true ->
  List.find f (pre ++ c :: post) = Some c.
Proof.
  intros Hpre Hc. induction pre as [|p pre IH]; simpl.
  - now rewrite Hc.
  - rewrite (Hpre p) by now left. apply IH. intros; apply Hpre; now right.
Qed.

Lemma find_none_all {A : Type} (f : A -> bool) (l : list A) :
  (forall p, In p l -> f p = false) -> List.find f l = None.
Proof.
  intros Hno. induction l as [|a l IH]; simpl; [reflexivity|].
  rewrite (Hno a) by now left. apply IH. intros; apply Hno; now right.
Qed.

(** ** [Resolve] *)

(** C2, as amended.  At a node with children, [Resolve] returns the
    first-declared child whose [Name] is [n], whatever aliases the siblings
    declare and whatever the alias cache holds; when no child has that name
    and the cache has just been rebuilt by [cacheAliases], it returns the
    last-declared child that declares [n] as an alias. *)
Theorem Resolve_name_then_last_alias (h : Heap) (x : ptr) (n : string)
    (pre post : list ptr) (c : ptr) :
  Commands (h x) = Some (pre ++ c :: post) ->
  (Name (h c) = n -> (forall p, In p pre -> Name (h p) <> n) ->
   Resolve h x n = Some c /\ Resolve (cacheAliases h x) x n = Some c) /\
  ((forall p, In p (pre ++ c :: post) -> Name (h p) <> n) ->
   carries h n c = true ->
   (forall p, In p post -> carries h n p = false) ->
   Resolve (cacheAliases h x) x n = Some c).
Proof.
  intros Hcs. split.
  - intros Hc Hpre.
    assert (Hf : List.find (fun c0 => String.eqb n (Name (h c0)))
                           (pre ++ c :: post) = Some c).
    { apply find_first.
      - intros p Hp. apply String.eqb_neq. intros ->. now apply (Hpre p).
      - apply String.eqb_eq. now symmetry. }
    split.
    + unfold Resolve. now rewrite Hcs, Hf.
    + unfold Resolve.
      destruct (same_tree_cacheAliases h x x) as (_ & _ & -> & _).
      rewrite Hcs.
      rewrite (find_pointwise
                 (fun c0 => String.eqb n (Name (cacheAliases h x c0)))
                 (fun c0 => String.eqb n (Name (h c0)))).
      * now rewrite Hf.
      * intros c0. destruct (same_tree_cacheAliases h x c0) as (-> & _).
        reflexivity.
  - intros Hname Hc Hpost. unfold Resolve.
    destruct (same_tree_cacheAliases h x x) as (_ & _ & -> & _).
    rewrite Hcs.
    rewrite (find_pointwise
               (fun c0 => String.eqb n (Name (cacheAliases h x c0)))
               (fun c0 => String.eqb n (Name (h c0)))).
    + rewrite find_none_all.
      * rewrite (cacheAliases_table h x _ Hcs), alias_table_fold.
        now apply cache_last.
      * intros p Hp. apply String.eqb_neq. intros ->. now apply (Hname p).
    + intros c0. destruct (same_tree_cacheAliases h x c0) as (-> & _).
      reflexivity.
Qed.

Lemma Resolve_name_then_last_alias_witness :
  Commands (twins 0%nat) = Some ([1%nat] ++ 2%nat :: []) /\
  Resolve (cacheAliases twins 0%nat) 0%nat "x" = Some 2%nat.
Proof.
  split; [reflexivity|].
  apply (Resolve_name_then_last_alias twins 0%nat "x" [1%nat] [] 2%nat eq_refl).
  - intros p [<-|[<-|[]]]; discriminate.
  - reflexivity.
  - intros p [].
Defined.

(** C2, as stated, fails: both children of the root declare the alias x,
    and the second-declared one answers for it. *)
Lemma first_alias_does_not_answer : ~ first_alias_answers.
Proof.
  intros Hclaim.
  assert (H : Resolve (cacheAliases twins 0%nat) 0%nat "x" = Some 1%nat).
  { apply (Hclaim twins 0%nat "x" [] 1%nat [2%nat] eq_refl).
    - intros p [<-|[<-|[]]]; discriminate.
    - reflexivity.
    - intros p []. }
  vm_compute in H. discriminate H.
Qed.

(** ** [Seek] *)

(** Splits a conjunction into its parts, and nothing else. *)
Ltac conjs := repeat match goal with |- _ /\ _ => split end.

Lemma walk_transport (h h' : Heap) (x : ptr) (toks : list string) (y : ptr) :
  (forall p n, Resolve h' p n = Resolve h p n) ->
  walk h' x toks y -> walk h x toks y.
Proof.
  intros Hr Hw. induction Hw as [x|x t c ts y Hres _ IH].
  - constructor.
  - apply walk_cons with c; [now rewrite <- Hr | exact IH].
Qed.

(** The walk is determined by its tokens: what is left of a longer walk
    after a prefix of it starts where the prefix ended. *)
Lemma walk_split (h : Heap) (x cur y : ptr) (consumed rest : list string) :
  walk h x consumed cur -> walk h x (consumed ++ rest) y -> walk h cur rest y.
Proof.
  intros Hc. revert y. induction Hc as [x|x t c ts cur Hres _ IH]; intros y Hw.
  - exact Hw.
  - simpl in Hw. inversion Hw as [|x' t' c' ts' y' Hres' Hw']; subst.
    rewrite Hres in Hres'. injection Hres' as <-. now apply IH.
Qed.

Lemma seek_loop_greedy (args : list string) :
  forall (h : Heap) (x : ptr),
  exists h' cur consumed rest,
    seek_loop h x args = (h', cur, rest) /\
    args = consumed ++ rest /\
    walk h x consumed cur /\
    same_tree h h' /\
    (forall p n, Resolve h' p n = Resolve h p n) /\
    (forall t rest', rest = t :: rest' -> Resolve h cur t = None).
Proof.
  induction args as [|a args IH]; intros h x.
  - exists h, x, [], []. simpl. conjs; try reflexivity.
    + constructor.
    + apply same_tree_refl.
    + intros t rest' Heq. discriminate Heq.
  - simpl. destruct (Resolve h x a) as [next|] eqn:Hres.
    + set (h1 := store h next (set_Caller (Some x) (h next))).
      destruct (IH h1 next) as (h' & cur & consumed & rest & Hs & Ha & Hw & Ht & Hr & Hstop).
      assert (Hr1 : forall p n, Resolve h1 p n = Resolve h p n)
        by (intros; apply Resolve_set_Caller).
      exists h', cur, (a :: consumed), rest. conjs.
      * exact Hs.
      * simpl. now rewrite Ha.
      * apply walk_cons with next; [exact Hres|].
        now apply (walk_transport h h1).
      * apply same_tree_trans with h1; [apply same_tree_set_Caller | exact Ht].
      * intros p n. now rewrite Hr, Hr1.
      * intros t rest' Heq. rewrite <- Hr1. now apply (Hstop t rest').
    + exists h, x, [], (a :: args). conjs; try reflexivity.
      * constructor.
      * apply same_tree_refl.
      * intros t rest' Heq. injection Heq as <- _. exact Hres.
Qed.

(** What [Seek] returns, step by step. *)
Lemma Seek_steps (h : Heap) (x : ptr) (args : list string) :
  exists h' cur consumed rest,
    Seek h x args = (h', cur, rest) /\
    args = consumed ++ rest /\
    walk h x consumed cur /\
    same_tree h h' /\
    (forall t rest', rest = t :: rest' -> Resolve h cur t = None).
Proof.
  unfold Seek. destruct (Commands (h x)) as [cs|] eqn:Hcs.
  - destruct (seek_loop_greedy args h x)
      as (h' & cur & consumed & rest & Hs & Ha & Hw & Ht & _ & Hstop).
    exists h', cur, consumed, rest. conjs; assumption.
  - exists h, x, [], args. conjs; try reflexivity.
    + constructor.
    + apply same_tree_refl.
    + intros t rest' _. unfold Resolve. now rewrite Hcs.
Qed.

(** A walk that stopped at a token that is not resolved is the whole of
    any walk over the same tokens. *)
Lemma walk_stopped (h : Heap) (x cur y : ptr) (consumed rest : list string) :
  walk h x consumed cur ->
  (forall t rest', rest = t :: rest' -> Resolve h cur t = None) ->
  walk h x (consumed ++ rest) y -> cur = y /\ rest = [].
Proof.
  intros Hw Hstop Hy.
  pose proof (walk_split _ _ _ _ _ _ Hw Hy) as Hrest.
  destruct rest as [|t ts].
  - inversion Hrest; subst. split; reflexivity.
  - inversion Hrest as [|x' t' c ts' y' Hres _]; subst.
    now rewrite (Hstop t ts eq_refl) in Hres.
Qed.

(** A name borne by one child only is resolved to that child. *)
Lemma named_path_walk (h : Heap) (x : ptr) (toks : list string) (y : ptr) :
  named_path h x toks y -> walk h x toks y.
Proof.
  intros Hp. induction Hp as [x|x t c ts y Hin Hname Huniq _ IH].
  - constructor.
  - apply walk_cons with c; [|exact IH].
    unfold Resolve. destruct (Commands (h x)) as [cs|]; [|destruct Hin].
    simpl in Hin, Huniq.
    destruct (List.find (fun c0 => String.eqb t (Name (h c0))) cs)
      as [c'|] eqn:Hf.
    + apply List.find_some in Hf as [Hin' Heq].
      apply String.eqb_eq in Heq. f_equal. apply Huniq; [exact Hin' | now symmetry].
    + pose proof (List.find_none _ _ Hf c Hin) as Hno. simpl in Hno.
      rewrite Hname, String.eqb_refl in Hno. discriminate Hno.
Qed.

(** X16.  In a tree whose sibling names are distinct, a token sequence
    that spells a path of child names is followed to its end. *)
Lemma Seek_named_path (h : Heap) (x : ptr) (toks : list string) (y : ptr) :
  named_path h x toks y -> exists h', Seek h x toks = (h', y, []).
Proof.
  intros Hp. apply named_path_walk in Hp.
  destruct (Seek_steps h x toks)
    as (h' & cur & consumed & rest & Hs & Ha & Hw & _ & Hstop).
  rewrite Ha in Hp.
  destruct (walk_stopped _ _ _ _ _ _ Hw Hstop Hp) as [-> ->].
  exists h'. exact Hs.
Qed.


(** C1, at the failing input.  In the tree [nested] the tokens a, b match
    a path of child names and aliases: the child a of the root, then its
    child build, whose alias is b.  A run rebuilds the alias cache of the
    root only, so [Seek] does not return build with nothing left: it stops
    at a and leaves b over, and the run calls the action of a with b as its
    argument. *)
Example Seek_alias_below_root :
  spells nested 0%nat ["a"; "b"] 2%nat /\
  (let '(_, cur, rest) := Seek (cacheAliases nested 0%nat) 0%nat ["a"; "b"] in
   (cur, rest)) = (1%nat, ["b"]) /\
  resolved plain nested 0%nat ["a"; "b"] = (1%nat, ["b"]) /\
  events (snd (Run plain 0%nat (mkState nested ["app"; "a"; "b"] []))) =
    [EvCall 1%nat ["b"]] /\
  fst (Run plain 0%nat (mkState nested ["app"; "a"; "b"] [])) = Exited 0.
Proof.
  conjs.
  - apply spells_cons with 1%nat.
    + split; [left; reflexivity | left; reflexivity].
    + apply spells_cons with 2%nat; [|constructor].
      split; [left; reflexivity | right; left; reflexivity].
  - vm_compute. reflexivity.
  - vm_compute. reflexivity.
  - vm_compute. reflexivity.
  - vm_compute. reflexivity.
Qed.

(** ** [ArgsFrom] *)

Lemma append_cons (c : ascii) (s t : string) :
  (String c s ++ t)%string = String c (s ++ t).
Proof. reflexivity. Qed.

Lemma append_empty_l (s : string) : ("" ++ s)%string = s.
Proof. reflexivity. Qed.

Lemma append_empty_r (s : string) : (s ++ "")%string = s.
Proof.
  induction s as [|c s IH]; [reflexivity|].
  now rewrite append_cons, IH.
Qed.

Lemma append_assoc (s t u : string) :
  ((s ++ t) ++ u)%string = (s ++ t ++ u)%string.
Proof.
  induction s as [|c s IH]; [reflexivity|].
  now rewrite !append_cons, IH.
Qed.

Lemma concat_empty_cons (x : string) (xs : list string) :
  String.concat "" (x :: xs) = (x ++ String.concat "" xs)%string.
Proof.
  destruct xs as [|y ys]; simpl; [now rewrite append_empty_r | reflexivity].
Qed.

Lemma take_drop (n : nat) : forall s, (take n s ++ drop n s)%string = s.
Proof.
  induction n as [|n IH]; intros [|c t]; try reflexivity.
  simpl. rewrite append_cons. now rewrite IH.
Qed.

Lemma length_drop (n : nat) :
  forall s, String.length (drop n s) = (String.length s - n)%nat.
Proof.
  induction n as [|n IH]; intros [|c t]; simpl; try reflexivity.
  apply IH.
Qed.

(** The tests of [DecodeRuneInString], one after the other. *)
Ltac decode_cases :=
  repeat match goal with
         | |- context [if ?b then _ else _] => destruct b eqn:?
         end.

(** A rune takes one byte at least, and no more than there are. *)
Lemma width_pos (s : string) :
  s <> "" -> (1 <= snd (DecodeRuneInString s))%nat.
Proof.
  destruct s as [|c0 t]; [congruence|]. intros _.
  unfold DecodeRuneInString.
  destruct t as [|c1 [|c2 [|c3 t]]]; decode_cases; simpl; lia.
Qed.

Lemma width_le (s : string) :
  (snd (DecodeRuneInString s) <= String.length s)%nat.
Proof.
  destruct s as [|c0 t]; [simpl; lia|].
  unfold DecodeRuneInString.
  destruct t as [|c1 [|c2 [|c3 t]]]; decode_cases; simpl; lia.
Qed.

(** The fuel does not matter once it covers the string. *)
Lemma runes_from_fuel (fuel : nat) :
  forall fuel' s,
    (String.length s <= fuel)%nat -> (String.length s <= fuel')%nat ->
    runes_from fuel s = runes_from fuel' s.
Proof.
  induction fuel as [|fuel IH]; intros fuel' s Hs Hs'.
  - destruct s; [now destruct fuel' | simpl in Hs; lia].
  - destruct s as [|c t]; [now destruct fuel'|].
    destruct fuel' as [|fuel']; [simpl in Hs'; lia|].
    cbn [runes_from].
    pose proof (width_pos (String c t) ltac:(discriminate)) as Hw.
    destruct (DecodeRuneInString (String c t)) as [r w]. simpl in Hw.
    f_equal.
    assert (Hd : (String.length (drop w (String c t)) <= String.length t)%nat).
    { rewrite length_drop. simpl. lia. }
    simpl in Hs, Hs'. apply IH; lia.
Qed.

Lemma runes_from_enough (fuel : nat) (s : string) :
  (String.length s <= fuel)%nat -> runes_from fuel s = runes s.
Proof. intros Hs. unfold runes. now apply runes_from_fuel. Qed.

Lemma runes_cons (c : ascii) (t : string) :
  runes (String c t) =
  (fst (DecodeRuneInString (String c t)),
   take (snd (DecodeRuneInString (String c t))) (String c t))
  :: runes (drop (snd (DecodeRuneInString (String c t))) (String c t)).
Proof.
  unfold runes at 1.
  change (String.length (String c t)) with (S (String.length t)).
  cbn [runes_from].
  pose proof (width_pos (String c t) ltac:(discriminate)) as Hw.
  destruct (DecodeRuneInString (String c t)) as [r w]. simpl in *.
  f_equal. apply runes_from_enough. rewrite length_drop. simpl. lia.
Qed.

(** Decoding leaves out no byte. *)
Lemma runes_bytes (s : string) : bytes_of (runes s) = s.
Proof.
  remember (String.length s) as n eqn:Hn.
  revert s Hn. induction n as [n IH] using lt_wf_ind. intros s Hn.
  destruct s as [|c t]; [reflexivity|].
  rewrite runes_cons. unfold bytes_of. cbn [map snd].
  rewrite concat_empty_cons.
  pose proof (width_pos (String c t) ltac:(discriminate)) as Hw.
  fold (bytes_of (runes (drop (snd (DecodeRuneInString (String c t))) (String c t)))).
  rewrite (IH (String.length (drop (snd (DecodeRuneInString (String c t))) (String c t)))).
  - apply take_drop.
  - subst n. rewrite length_drop. simpl. simpl in Hw. lia.
  - reflexivity.
Qed.

Lemma bytes_of_cons (r : rune * string) (rs : list (rune * string)) :
  bytes_of (r :: rs) = (snd r ++ bytes_of rs)%string.
Proof. unfold bytes_of. cbn [map]. apply concat_empty_cons. Qed.

(** Runes that are not white space extend the field being read. *)
Lemma spans_word (word : list (rune * string)) :
  forall start rs,
    word <> [] -> Forall (fun r => is_space r = false) word ->
    spans IsSpace start (word ++ rs) =
    spans IsSpace (Some (match start with
                         | Some w => (w ++ bytes_of word)%string
                         | None => bytes_of word
                         end)) rs.
Proof.
  induction word as [|[r b] word IH]; intros start rs Hne Hall;
    [contradiction|].
  inversion Hall as [|? ? Hr Hrest]; subst. unfold is_space in Hr.
  simpl in Hr. cbn [app spans]. rewrite Hr.
  destruct word as [|y word].
  - cbn [app]. rewrite bytes_of_cons. cbn [snd bytes_of map String.concat].
    now rewrite append_empty_r.
  - rewrite IH by (discriminate || assumption).
    rewrite (bytes_of_cons (r, b)). cbn [snd].
    destruct start as [w|]; [now rewrite append_assoc | reflexivity].
Qed.

(** The scan lays the runes out in fields. *)
Lemma spans_layout (rs : list (rune * string)) :
  layout rs (spans IsSpace None rs).
Proof.
  remember (length rs) as n eqn:Hn. revert rs Hn.
  induction n as [n IH] using lt_wf_ind. intros rs Hn.
  destruct rs as [|r rs]; [constructor|].
  destruct (is_space r) eqn:Hr.
  - destruct r as [c b]. cbn [spans]. unfold is_space in Hr. simpl in Hr.
    rewrite Hr. apply layout_space; [exact Hr|].
    apply (IH (length rs)); [subst n; simpl; lia | reflexivity].
  - (* the run of runes that are not white space *)
    assert (Hrun : exists word rest,
               r :: rs = word ++ rest /\ word <> [] /\
               Forall (fun r => is_space r = false) word /\
               (rest = [] \/ exists r' rest', rest = r' :: rest' /\
                                             is_space r' = true)).
    { clear IH Hn. revert r Hr. induction rs as [|r2 rs IHrs]; intros r Hr.
      - exists [r], []. repeat split; [discriminate | now constructor | now left].
      - destruct (is_space r2) eqn:Hr2.
        + exists [r], (r2 :: rs).
          repeat split; [discriminate | now constructor |].
          right. now exists r2, rs.
        + destruct (IHrs r2 Hr2) as (word & rest & Heq & _ & Hall & Hrest).
          exists (r :: word), rest. rewrite Heq.
          repeat split; [discriminate | now constructor | exact Hrest]. }
    destruct Hrun as (word & rest & Heq & Hne & Hall & Hrest).
    rewrite Heq, spans_word by assumption.
    destruct Hrest as [->|(r' & rest' & -> & Hr')].
    + rewrite app_nil_r. cbn [spans]. now apply layout_last.
    + destruct r' as [c' b']. cbn [spans]. unfold is_space in Hr'.
      simpl in Hr'. rewrite Hr'.
      apply layout_field; try assumption.
      apply (IH (length rest')); [|reflexivity].
      subst n. rewrite Heq, length_app. simpl. lia.
Qed.

Lemma split_at_space (w1 : list (rune * string)) :
  forall w2 r1 r2 t1 t2,
    Forall (fun r => is_space r = false) w1 ->
    Forall (fun r => is_space r = false) w2 ->
    is_space r1 = true -> is_space r2 = true ->
    w1 ++ r1 :: t1 = w2 ++ r2 :: t2 -> w1 = w2 /\ r1 = r2 /\ t1 = t2.
Proof.
  induction w1 as [|a w1 IH]; intros w2 r1 r2 t1 t2 H1 H2 Hr1 Hr2 Heq.
  - destruct w2 as [|b w2].
    + simpl in Heq. now inversion Heq.
    + simpl in Heq. inversion Heq; subst. inversion H2; subst. congruence.
  - destruct w2 as [|b w2].
    + simpl in Heq. inversion Heq; subst. inversion H1; subst. congruence.
    + simpl in Heq. inversion Heq; subst.
      inversion H1; subst. inversion H2; subst.
      destruct (IH w2 r1 r2 t1 t2) as (-> & -> & ->); auto.
Qed.

Lemma no_space_in_word (w1 w2 : list (rune * string)) r t :
  Forall (fun r => is_space r = false) w1 -> is_space r = true ->
  w1 = w2 ++ r :: t -> False.
Proof.
  intros H1 Hr ->. apply Forall_app in H1 as [_ H1].
  inversion H1; subst. congruence.
Qed.

(** There is one layout only. *)
Lemma layout_unique (rs : list (rune * string)) (fs1 fs2 : list string) :
  layout rs fs1 -> layout rs fs2 -> fs1 = fs2.
Proof.
  intros H1. revert fs2.
  induction H1 as [|r rs fs Hr H1 IH|word Hne Hall|word r rs fs Hne Hall Hr H1 IH];
    intros fs2 H2.
  - inversion H2 as [| |word Hne' Hall' Heq|word r rs fs Hne' Hall' Hr' H' Heq];
      subst; try reflexivity.
    + contradiction.
    + destruct word; discriminate.
  - inversion H2 as [|r' rs' fs' Hr' H'|word Hne' Hall' Heq
                     |word r' rs' fs' Hne' Hall' Hr' H' Heq]; subst.
    + now apply IH.
    + inversion Hall'; subst. congruence.
    + destruct word as [|a word]; [contradiction|].
      simpl in Heq. inversion Heq; subst. inversion Hall'; subst. congruence.
  - inversion H2 as [|r' rs' fs' Hr' H'|word' Hne' Hall' Heq
                     |word' r' rs' fs' Hne' Hall' Hr' H' Heq]; subst.
    + contradiction.
    + inversion Hall; subst. congruence.
    + reflexivity.
    + exfalso. now apply (no_space_in_word _ word' r' rs' Hall Hr').
  - inversion H2 as [|r' rs' fs' Hr' H' Heq|word' Hne' Hall' Heq
                     |word' r' rs' fs' Hne' Hall' Hr' H' Heq]; subst.
    + destruct word; discriminate.
    + destruct word as [|a word]; [contradiction|].
      simpl in Heq. inversion Heq; subst. inversion Hall; subst. congruence.
    + exfalso. now apply (no_space_in_word _ word r rs Hall' Hr).
    + destruct (split_at_space word word' r r' rs rs' Hall Hall' Hr Hr' (eq_sym Heq))
        as (-> & -> & ->).
      f_equal. now apply IH.
Qed.

(** C9, as amended.  [ArgsFrom] returns the fields of the line, followed by
    one empty token exactly when the last byte of the line is the space
    U+0020; a line that ends in other white space gets no empty token.
    The fields are those of [strings.Fields]: the line is read as runes,
    which leave out none of its bytes, and the fields are the one layout of
    these runes, white space skipped and each field a longest run of runes
    that are not white space. *)
Theorem ArgsFrom_fields_then_blank (line : string) :
  ArgsFrom line = Fields line ++ (if ends_in_blank line then [""] else []) /\
  bytes_of (runes line) = line /\
  (forall fs, layout (runes line) fs <-> fs = Fields line).
Proof.
  conjs.
  - unfold ArgsFrom, ends_in_blank.
    destruct (String.eqb_spec line "") as [->|Hne]; [reflexivity|].
    destruct (last_byte line) as [c|].
    + destruct (Ascii.eqb c " "); [reflexivity | now rewrite app_nil_r].
    + now rewrite app_nil_r.
  - apply runes_bytes.
  - intros fs. split.
    + intros Hfs. apply (layout_unique (runes line)); [exact Hfs|].
      apply spans_layout.
    + intros ->. apply spans_layout.
Qed.

(** C9, as stated, fails: a line that ends in a tab ends in white space and
    gets no empty trailing token. *)
Lemma no_trailing_token_after_tab : ~ trailing_token_for_any_space.
Proof.
  intros Hclaim. specialize (Hclaim tabbed).
  vm_compute in Hclaim. discriminate Hclaim.
Qed.

(** White space outside ASCII separates fields as well, and gets no empty
    token at the end of a line either. *)
Example ArgsFrom_no_break_space :
  ArgsFrom unbroken = ["a"; "b"] /\
  ends_in_space (unbroken ++ wide_space) = true /\
  ArgsFrom (unbroken ++ wide_space) = ["a"; "b"].
Proof. conjs; vm_compute; reflexivity. Qed.

(** ** [comp.Standard] *)

Lemma filter_pointwise {A : Type} (f g : A -> bool) (l : list A) :
  (forall a, f a = g a) -> List.filter f l = List.filter g l.
Proof.
  intros Hfg. induction l as [|a l IH]; simpl; [reflexivity|].
  now rewrite Hfg, IH.
Qed.

(** [set.Minus] against the hidden names keeps what [IsHidden] rejects. *)
Lemma Minus_Hidden (h : Heap) (x : ptr) (l : list string) :
  Minus l (elems (Hidden (h x))) =
  List.filter (fun s => negb (IsHidden h x s)) l.
Proof.
  unfold Minus, IsHidden. apply filter_pointwise. intros s.
  now destruct (Hidden (h x)).
Qed.

Lemma filter_all {A : Type} (f : A -> bool) (l : list A) :
  (forall a, In a l -> f a = true) -> List.filter f l = l.
Proof.
  intros Hall. induction l as [|a l IH]; simpl; [reflexivity|].
  rewrite (Hall a) by now left.
  f_equal. apply IH. intros; apply Hall; now right.
Qed.

(** C8.  A node without a completer override completes no token to its own
    name alone; and one or more tokens to the names of its commands and its
    parameters, in that order, those in [Hidden] left out, that start with
    the first token.  The names of its commands are those of all its
    children when none of them has an empty name. *)
Theorem Standard_without_completer (h : Heap) (x : ptr) :
  Completer (h x) = None ->
  Standard h x [] = [Name (h x)] /\
  (forall tok rest,
     Standard h x (tok :: rest) =
     List.filter (fun s => String.prefix tok s)
       (List.filter (fun s => negb (IsHidden h x s))
          (CmdNames h x ++ elems (Params (h x))))) /\
  ((forall c, In c (elems (Commands (h x))) -> Name (h c) <> "") ->
   CmdNames h x = List.map (fun c => Name (h c)) (elems (Commands (h x)))).
Proof.
  intros Hc. unfold Standard. rewrite Hc. conjs.
  - reflexivity.
  - intros tok rest. unfold HasPrefix. now rewrite Minus_Hidden.
  - intros Hnames. unfold CmdNames. apply filter_all.
    intros n Hn. apply in_map_iff in Hn as (c & <- & Hin).
    apply negb_true_iff, String.eqb_neq. now apply Hnames.
Qed.

Lemma Standard_without_completer_witness :
  Completer (builder 0%nat) = None /\
  Standard builder 0%nat [] = ["app"] /\
  Standard builder 0%nat ["b"] = ["build"].
Proof.
  destruct (Standard_without_completer builder 0%nat eq_refl) as (H0 & H1 & _).
  split; [reflexivity|]. split; [exact H0|].
  rewrite H1. reflexivity.
Defined.

(** ** [Cmd.Q] *)

(** C10.  With no configurer assigned, [Q] logs that the node requires one
    and returns the empty string: it queries nothing, and it returns.  A
    query event comes from an assigned configurer only, and is the one for
    the path of the node followed by a dot and the key. *)
Theorem Q_asks_only_an_assigned_configurer (g : Globals) (fuel : nat)
    (h : Heap) (x : ptr) (q : string) :
  (Conf g = None ->
   Q g fuel h x q = Some ([EvLog (ErrReqConf (Name (h x)))], "")) /\
  (forall evs r path,
     Q g fuel h x q = Some (evs, r) -> In (EvQuery path) evs ->
     exists query p,
       Conf g = Some query /\ PathString fuel h x = Some p /\
       path = (p ++ "." ++ q)%string /\ r = query path) /\
  (forall query p,
     Conf g = Some query -> PathString fuel h x = Some p ->
     Q g fuel h x q =
     Some ([EvQuery (p ++ "." ++ q)%string], query (p ++ "." ++ q)%string)).
Proof.
  unfold Q. conjs.
  - intros ->. reflexivity.
  - intros evs r path Hq Hin.
    destruct (Conf g) as [query|].
    + destruct (PathString fuel h x) as [p|]; [|discriminate Hq].
      injection Hq as <- <-. destruct Hin as [Heq|[]].
      injection Heq as <-. exists query, p. conjs; reflexivity.
    + injection Hq as <- <-. destruct Hin as [Heq|[]]. discriminate Heq.
  - intros query p -> ->. reflexivity.
Qed.

(** After [Seek] the path of the node reached is spelled by the names below
    the root, and the query goes to the configurer under that path. *)
Example Q_after_Seek :
  Path 3 (fst (fst (Seek (cacheAliases nested 0%nat) 0%nat ["a"; "build"])))
       2%nat = Some ["a"; "build"] /\
  Q echo 3 (fst (fst (Seek (cacheAliases nested 0%nat) 0%nat ["a"; "build"])))
    2%nat "key" = Some ([EvQuery "a.build.key"], "a.build.key").
Proof. vm_compute. split; reflexivity. Qed.

(** More fuel does not change a walk that has ended. *)
Lemma callers_more_fuel (fuel : nat) (h : Heap) :
  forall p acc names,
    callers fuel h p acc = Some names -> callers (S fuel) h p acc = Some names.
Proof.
  induction fuel as [|fuel IH]; intros [q|] acc names H; simpl in *;
    try discriminate H; try exact H.
  now apply IH.
Qed.

(** A node that is its own caller has no path: the walk never ends. *)
Lemma Path_of_own_caller (h : Heap) (x : ptr) (fuel : nat) :
  Caller (h x) = Some x -> Path fuel h x = None.
Proof.
  intros Hc. unfold Path. rewrite Hc.
  assert (H : forall acc, callers fuel h (Some x) acc = None).
  { induction fuel as [|fuel IH]; intros acc; simpl; [reflexivity|].
    rewrite Hc. apply IH. }
  now rewrite H.
Qed.

(** ** [Cmd.Run]: resolution *)

(** Runs the plumbing of the monad, and no function of the package. *)
Ltac monad :=
  cbv [bind ret get_heap put_heap get_osArgs put_osArgs emit when os_Exit
       throw heap osArgs events].

Lemma expandArgs_cons (al : gmap string (slice string)) (prog : string)
    (rest : list string) :
  expandArgs al (prog :: rest) = prog :: shorthand al rest.
Proof.
  unfold shorthand, expandArgs. destruct rest as [|a1 rest]; [reflexivity|].
  destruct (al !! a1) as [[alias|]|]; reflexivity.
Qed.

Lemma shorthand_alias (al : gmap string (slice string)) (a : string)
    (ts r : list string) :
  al !! a = Some (Some ts) -> shorthand al (a :: r) = ts ++ r.
Proof. intros Ha. unfold shorthand, expandArgs. now rewrite Ha. Qed.

Lemma shorthand_literal (al : gmap string (slice string))
    (rest : list string) :
  (forall t rest' v, rest = t :: rest' -> al !! t <> Some (Some v)) ->
  shorthand al rest = rest.
Proof.
  intros Hno. unfold shorthand, expandArgs.
  destruct rest as [|t rest']; [reflexivity|].
  destruct (al !! t) as [[v|]|] eqn:Ht; try reflexivity.
  now destruct (Hno t rest' v eq_refl).
Qed.

(** A run outside of a completion context: the alias cache of the root is
    rebuilt, [os.Args] is rewritten, and what [Seek] returns on the
    arguments after the program name is passed on, under [TrapPanic]. *)
Lemma Run_plain (g : Globals) (x : ptr) (h : Heap) (prog : string)
    (rest : list string) (ev : list Event) (h1 : Heap) (cmd0 : ptr)
    (args : list string) :
  COMP_LINE g = "" ->
  Seek (cacheAliases h x) x (shorthand (Z_Aliases g) rest) = (h1, cmd0, args) ->
  Run g x (mkState h (prog :: rest) ev) =
  TrapPanic g (cmd <- default_command g x cmd0;; delegate g x cmd args)
    (mkState h1 (prog :: shorthand (Z_Aliases g) rest) ev).
Proof.
  intros Hline Hseek.
  unfold Run, TrapPanic, dispatch. monad.
  rewrite Hline, expandArgs_cons. cbv [from1 negb String.eqb]. monad.
  rewrite Hseek. reflexivity.
Qed.

Lemma resolved_Seek (g : Globals) (h : Heap) (x : ptr) (rest : list string)
    (cmd0 : ptr) (args : list string) :
  resolved g h x rest = (cmd0, args) ->
  exists h1,
    Seek (cacheAliases h x) x (shorthand (Z_Aliases g) rest) = (h1, cmd0, args)
    /\ same_tree h h1.
Proof.
  unfold resolved. intros Hres.
  destruct (Seek_steps (cacheAliases h x) x (shorthand (Z_Aliases g) rest))
    as (h1 & cur & consumed & residual & Hs & _ & _ & Ht & _).
  rewrite Hs in Hres. injection Hres as -> ->.
  exists h1. split; [exact Hs|].
  apply same_tree_trans with (cacheAliases h x);
    [apply same_tree_cacheAliases | exact Ht].
Qed.

Lemma effective_same_tree (h h' : Heap) (c : ptr) :
  same_tree h h' -> effective h' c = effective h c.
Proof.
  intros Hs. unfold effective.
  destruct (Hs c) as (_ & _ & -> & -> & _).
  destruct (Call (h c)); [reflexivity|].
  destruct (elems (Commands (h c))) as [|fcmd l]; [reflexivity|].
  destruct (Hs fcmd) as (_ & _ & _ & -> & _). reflexivity.
Qed.

(** ** [Cmd.Run]: the default command *)

(** When the node [Seek] returned, or else its first child, has an action,
    the run goes on with that node, whatever the settings. *)
Lemma default_command_effective (g : Globals) (x cmd0 eff : ptr) (h1 : Heap)
    (a : list string) (ev : list Event) :
  effective h1 cmd0 = Some eff ->
  exists h2,
    default_command g x cmd0 (mkState h1 a ev) = (Ok eff, mkState h2 a ev) /\
    same_tree h1 h2.
Proof.
  unfold effective, default_command. monad. intros Heff.
  destruct (Call (h1 cmd0)) as [f|].
  - injection Heff as <-. exists h1. split; [reflexivity | apply same_tree_refl].
  - destruct (elems (Commands (h1 cmd0))) as [|fcmd l]; [discriminate Heff|].
    destruct (Call (h1 fcmd)) as [f|]; [|discriminate Heff].
    injection Heff as <-. simpl.
    exists (store h1 fcmd (set_Caller (Some cmd0) (h1 fcmd))).
    split; [reflexivity | apply same_tree_set_Caller].
Qed.

(** A node with neither action nor children is reported as not yet
    implemented, under the name of the root of the run. *)
Lemma default_command_hollow (g : Globals) (x cmd0 : ptr) (h1 : Heap)
    (a : list string) (ev : list Event) :
  Call (h1 cmd0) = None -> elems (Commands (h1 cmd0)) = [] ->
  default_command g x cmd0 (mkState h1 a ev) =
  (if DoNotExit g then Ok cmd0 else Exited 1,
   mkState h1 a (ev ++ [EvLog (ErrUnimplemented (Name (h1 x)))])).
Proof.
  intros Hcall Hcs. unfold default_command. monad.
  rewrite Hcall, Hcs. unfold ExitError, Unimplemented. monad. simpl.
  destruct (DoNotExit g); reflexivity.
Qed.

(** ** [Cmd.Run]: checks and call *)

Lemma delegate_exiting (g : Globals) (x cmd : ptr) (args : list string)
    (h2 : Heap) (a : list string) (ev : list Event) (f : Method) :
  DoNotExit g = false -> Call (h2 cmd) = Some f ->
  let r := delegate g x cmd args (mkState h2 a ev) in
  (len args < MinArgs (h2 cmd) ->
   fst r = Exited 1 /\
   events (snd r) = ev ++ [EvLog (UsageError g h2 cmd)]) /\
  (MinArgs (h2 cmd) <= len args ->
   ReqConf (h2 x) = true -> Conf g = None ->
   fst r = Exited 1 /\
   events (snd r) = ev ++ [EvLog (ReqConfError h2 cmd)]) /\
  (MinArgs (h2 cmd) <= len args ->
   ReqConf (h2 x) = false \/ Conf g <> None ->
   fst r = Exited (if is_nil (f cmd args) then 0 else 1) /\
   events (snd r) = ev ++ EvCall cmd args :: after_call (f cmd args)).
Proof.
  intros Hexit Hcall r. subst r. unfold delegate. monad. conjs.
  - intros Hlt. apply Z.ltb_lt in Hlt. rewrite Hlt.
    unfold ExitError. monad. simpl. rewrite Hexit. split; reflexivity.
  - intros Hge Hreq Hconf. apply Z.ltb_ge in Hge. rewrite Hge, Hreq, Hconf.
    simpl. unfold ExitError. monad. simpl. rewrite Hexit. split; reflexivity.
  - intros Hge Hcheck. apply Z.ltb_ge in Hge. rewrite Hge.
    assert (Hg : ReqConf (h2 x) && is_nil (Conf g) = false).
    { destruct Hcheck as [->|Hc]; [reflexivity|].
      destruct (Conf g); [apply andb_false_r | contradiction]. }
    rewrite Hg. unfold invoke. monad.
    assert (Hcall' :
              Call (store h2 cmd (set_Caller (Some x) (h2 cmd)) cmd) = Some f)
      by (rewrite store_same; exact Hcall).
    unfold ExitError, Exit, after_call.
    destruct (is_nil (Caller (h2 cmd))); simpl;
      rewrite ?Hcall', ?Hcall; monad;
      destruct (f cmd args) as [msg|]; simpl; rewrite Hexit;
      try destruct (String.eqb msg ""); simpl; rewrite <- ?app_assoc;
      split; reflexivity.
Qed.

(** Whatever the settings, a node without an action is never called: the
    run that comes as far as the call panics there. *)
Lemma delegate_without_action (g : Globals) (x cmd : ptr)
    (args : list string) (h2 : Heap) (a : list string) (ev : list Event) :
  DoNotExit g = true -> Call (h2 cmd) = None ->
  exists more,
    fst (delegate g x cmd args (mkState h2 a ev)) = Panicked NilCall /\
    events (snd (delegate g x cmd args (mkState h2 a ev))) = ev ++ more /\
    no_call more = true.
Proof.
  intros Hstay Hcall. unfold delegate, ExitError, invoke. monad.
  unfold UsageError, ReqConfError. simpl. rewrite Hstay.
  assert (Hcall' : Call (store h2 cmd (set_Caller (Some x) (h2 cmd)) cmd) = None)
    by (rewrite store_same; exact Hcall).
  destruct (len args <? MinArgs (h2 cmd));
    destruct (ReqConf (h2 x) && is_nil (Conf g));
    destruct (is_nil (Caller (h2 cmd))); simpl;
    rewrite ?Hcall', ?Hcall; simpl; rewrite <- ?app_assoc; simpl;
    eexists; (split; [reflexivity|]);
    (split; [try reflexivity; symmetry; apply app_nil_r | reflexivity]).
Qed.

Lemma TrapPanic_exited {A : Type} (g : Globals) (body : M A) (s : State)
    (code : Z) :
  fst (body s) = Exited code -> TrapPanic g body s = body s.
Proof.
  unfold TrapPanic. destruct (body s) as [[a|c|p] s']; simpl; intros H;
    (reflexivity || discriminate H).
Qed.

Lemma bind_ok {A B : Type} (m : M A) (k : A -> M B) (s s' : State) (a : A) :
  m s = (Ok a, s') -> bind m k s = k a s'.
Proof. intros H. unfold bind. now rewrite H. Qed.

Lemma bind_exited {A B : Type} (m : M A) (k : A -> M B) (s s' : State)
    (code : Z) :
  m s = (Exited code, s') -> bind m k s = (Exited code, s').
Proof. intros H. unfold bind. now rewrite H. Qed.

(** ** The check of the number of arguments *)




(** ** A node with neither action nor children *)

(** C5.  A run that resolves to a node with no action and no children
    reports the node, whatever the residual arguments are: the first thing
    it logs is the error of [Unimplemented], the one [Cmd.Run] keeps for a
    node in this state, under the name of the root of the run.  No action
    is called, and the run ends in failure: exit status 1, or the panic of
    the call of a nil action when exits are disabled and panics are let
    through. *)
Theorem Run_hollow_node (g : Globals) (x : ptr) (h : Heap) (prog : string)
    (rest : list string) (ev : list Event) (cmd0 : ptr) (args : list string) :
  COMP_LINE g = "" ->
  resolved g h x rest = (cmd0, args) ->
  Call (h cmd0) = None -> elems (Commands (h cmd0)) = [] ->
  exists more,
    events (snd (Run g x (mkState h (prog :: rest) ev))) =
    ev ++ EvLog (ErrUnimplemented (Name (h x))) :: more /\
    no_call more = true /\
    fst (Run g x (mkState h (prog :: rest) ev)) =
    if DoNotExit g && AllowPanic g then Panicked NilCall else Exited 1.
Proof.
  intros Hline Hres Hcall Hcs.
  destruct (resolved_Seek g h x rest cmd0 args Hres) as (h1 & Hseek & Ht1).
  rewrite (Run_plain g x h prog rest ev h1 cmd0 args Hline Hseek).
  destruct (Ht1 cmd0) as (_ & _ & Hcs1 & Hcall1 & _).
  destruct (Ht1 x) as (Hname & _).
  rewrite <- Hcall1 in Hcall. rewrite <- Hcs1 in Hcs. rewrite <- Hname.
  pose proof (default_command_hollow g x cmd0 h1
                (prog :: shorthand (Z_Aliases g) rest) ev Hcall Hcs) as Hdef.
  destruct (DoNotExit g) eqn:Hstay.
  - destruct (delegate_without_action g x cmd0 args h1
                (prog :: shorthand (Z_Aliases g) rest)
                (ev ++ [EvLog (ErrUnimplemented (Name (h1 x)))]) Hstay Hcall)
      as (more & Hr & He & Hno).
    unfold TrapPanic. rewrite (bind_ok _ _ _ _ _ Hdef).
    destruct (delegate g x cmd0 args _) as [r s'] eqn:Hd.
    simpl in Hr, He. subst r. simpl.
    destruct (AllowPanic g); simpl.
    + exists more. rewrite He, <- app_assoc. conjs; [reflexivity|exact Hno|reflexivity].
    + exists (more ++ [EvLogPanic NilCall]).
      rewrite He, <- !app_assoc. conjs; try reflexivity.
      unfold no_call in *. rewrite forallb_app, Hno. reflexivity.
  - rewrite TrapPanic_exited with (code := 1);
      rewrite (bind_exited _ _ _ _ _ Hdef); [|reflexivity].
    exists []. conjs; reflexivity.
Qed.

Lemma Run_hollow_node_witness :
  Call (hollow 0%nat) = None /\
  exists more,
    events (snd (Run plain 0%nat (mkState hollow ["app"; "now"] []))) =
    [] ++ EvLog (ErrUnimplemented "app") :: more /\
    no_call more = true /\
    fst (Run plain 0%nat (mkState hollow ["app"; "now"] [])) = Exited 1.
Proof.
  split; [reflexivity|].
  apply (Run_hollow_node plain 0%nat hollow "app" ["now"] [] 0%nat ["now"]);
    reflexivity.
Defined.

(** ** Shorthand aliases *)

(** A run reads [os.Args] through the rewrite at its head only. *)
Lemma Run_reads_rewritten_args (g : Globals) (x : ptr) (h : Heap)
    (o1 o2 : list string) (ev : list Event) :
  expandArgs (Z_Aliases g) o1 = expandArgs (Z_Aliases g) o2 ->
  Run g x (mkState h o1 ev) = Run g x (mkState h o2 ev).
Proof.
  intros Heq. unfold Run, TrapPanic. monad. now rewrite Heq.
Qed.

(** C3, as amended.  For a shorthand alias [a] registered with the
    non-nil replacement [ts], a run on [a] followed by [r] rewrites its
    arguments to [ts] followed by [r], the replacement being neither
    expanded again nor [r] touched, and resolves the node and residual
    arguments that [Seek] finds for them.  It is the run on the literal
    arguments [ts] followed by [r], provided the first of these is not
    itself a shorthand alias with a non-nil replacement. *)
Theorem shorthand_alias_once (g : Globals) (x : ptr) (h : Heap)
    (prog a : string) (ts r : list string) (ev : list Event) :
  Z_Aliases g !! a = Some (Some ts) ->
  expandArgs (Z_Aliases g) (prog :: a :: r) = prog :: ts ++ r /\
  resolved g h x (a :: r) =
    (let '(_, cmd0, args) := Seek (cacheAliases h x) x (ts ++ r) in
     (cmd0, args)) /\
  ((forall t rest v, ts ++ r = t :: rest -> Z_Aliases g !! t <> Some (Some v)) ->
   resolved g h x (a :: r) = resolved g h x (ts ++ r) /\
   Run g x (mkState h (prog :: a :: r) ev) =
   Run g x (mkState h (prog :: ts ++ r) ev)).
Proof.
  intros Ha. conjs.
  - now rewrite expandArgs_cons, (shorthand_alias _ a ts r Ha).
  - unfold resolved. now rewrite (shorthand_alias _ a ts r Ha).
  - intros Hlit. unfold resolved.
    rewrite (shorthand_alias _ a ts r Ha), (shorthand_literal _ _ Hlit).
    split; [reflexivity|].
    apply Run_reads_rewritten_args.
    now rewrite !expandArgs_cons, (shorthand_alias _ a ts r Ha),
      (shorthand_literal _ _ Hlit).
Qed.

Lemma shorthand_alias_once_witness :
  Z_Aliases (with_Aliases vcs_aliases plain) !! "co" = Some (Some ["st"]) /\
  expandArgs vcs_aliases ["app"; "co"; "-v"] = ["app"; "st"; "-v"] /\
  resolved (with_Aliases vcs_aliases plain) vcs 0%nat ["co"; "-v"] =
  (2%nat, ["-v"]).
Proof.
  destruct (shorthand_alias_once (with_Aliases vcs_aliases plain) 0%nat vcs
              "app" "co" ["st"] ["-v"] [] eq_refl) as (He & Hr & _).
  split; [reflexivity|]. split; [exact He|].
  rewrite Hr. reflexivity.
Defined.

(** C3, as stated, fails: co stands for st, which is itself a shorthand
    for status; the run on co resolves the node st, the run on the literal
    st resolves the node status. *)
Lemma shorthand_does_not_resolve_as_literal : ~ shorthand_resolves_as_literal.
Proof.
  intros Hclaim.
  specialize (Hclaim (with_Aliases vcs_aliases plain) vcs 0%nat "co" ["st"] []
                eq_refl).
  vm_compute in Hclaim. discriminate Hclaim.
Qed.

(** ** The check of the configurer *)

(** X15.  What the code checks is the flag of the root of the run: with it
    set and no configurer assigned, a run with exits enabled that passes the
    check of the arguments logs that the target requires a configurer, and
    exits with status 1 without calling the action. *)
Lemma Run_ReqConf_of_root (g : Globals) (x : ptr) (h : Heap) (prog : string)
    (rest : list string) (ev : list Event) (cmd0 eff : ptr)
    (args : list string) (f : Method) :
  COMP_LINE g = "" -> DoNotExit g = false ->
  resolved g h x rest = (cmd0, args) ->
  effective h cmd0 = Some eff -> Call (h eff) = Some f ->
  MinArgs (h eff) <= len args ->
  ReqConf (h x) = true -> Conf g = None ->
  fst (Run g x (mkState h (prog :: rest) ev)) = Exited 1 /\
  events (snd (Run g x (mkState h (prog :: rest) ev))) =
  ev ++ [EvLog (ErrReqConf (Name (h eff)))].
Proof.
  intros Hline Hexit Hres Heff Hcall Hge Hreq Hconf.
  destruct (resolved_Seek g h x rest cmd0 args Hres) as (h1 & Hseek & Ht1).
  rewrite (Run_plain g x h prog rest ev h1 cmd0 args Hline Hseek).
  rewrite <- (effective_same_tree h h1 cmd0 Ht1) in Heff.
  destruct (default_command_effective g x cmd0 eff h1
              (prog :: shorthand (Z_Aliases g) rest) ev Heff)
    as (h2 & Hdef & Ht2).
  pose proof (same_tree_trans _ _ _ Ht1 Ht2) as Ht.
  destruct (Ht eff) as (Hname & _ & _ & Hcall2 & Hmin & _).
  destruct (Ht x) as (_ & _ & _ & _ & _ & Hreq2 & _).
  rewrite <- Hcall2 in Hcall. rewrite <- Hmin in Hge. rewrite <- Hreq2 in Hreq.
  destruct (delegate_exiting g x eff args h2
              (prog :: shorthand (Z_Aliases g) rest) ev f Hexit Hcall)
    as (_ & Hcheck & _).
  destruct (Hcheck Hge Hreq Hconf) as [Hr He].
  rewrite TrapPanic_exited with (code := 1);
    rewrite (bind_ok _ _ _ _ _ Hdef); [|exact Hr].
  split; [exact Hr|]. rewrite He. unfold ReqConfError. now rewrite Hname.
Qed.

(** C6: the code at the failing input.  The leaf get requires the
    configurer, its root does not, and none is assigned: the run calls the
    action of get and exits with status 0, no error logged. *)
Example Run_ignores_ReqConf_of_target :
  ReqConf (needy 1%nat) = true /\ ReqConf (needy 0%nat) = false /\
  Conf plain = None /\
  resolved plain needy 0%nat ["get"] = (1%nat, []) /\
  fst (Run plain 0%nat (mkState needy ["app"; "get"] [])) = Exited 0 /\
  events (snd (Run plain 0%nat (mkState needy ["app"; "get"] []))) =
  [EvCall 1%nat []].
Proof. vm_compute. conjs; reflexivity. Qed.

(** ** Multicall [Run] *)

Lemma prepended_strings (g : Globals) (l : list string) (s : State) :
  prepended g (List.map AnyString l) s = (Ok l, s).
Proof.
  induction l as [|a l IH]; simpl; [reflexivity|].
  monad. now rewrite IH.
Qed.

(** X11.  With one string or more to prepend, the multicall [Run] is the
    run of the root on its name, the strings, and the arguments of the
    invocation after the program name; then [Exit]; and, when that
    returns, the error of an unmapped command all the same. *)
Lemma Z_Run_prepends (g : Globals) (cmd : ptr) (s1 : string)
    (ss : list string) (h : Heap) (prog : string) (rest : list string)
    (ev : list Event) :
  Z_Commands g !! ExeName g = Some (AnyCmd cmd :: List.map AnyString (s1 :: ss)) ->
  Z_Run g (mkState h (prog :: rest) ev) =
  (Run g cmd;; Exit g;; ExitError g (ErrUnmapped (ExeName g)))
    (mkState h (Name (h cmd) :: (s1 :: ss) ++ rest) ev).
Proof.
  intros Hv. unfold Z_Run. rewrite Hv.
  change (List.map AnyString (s1 :: ss))
    with (AnyString s1 :: List.map AnyString ss).
  assert (H1 : (len (AnyCmd cmd :: AnyString s1 :: List.map AnyString ss) <? 1)
               = false) by (apply Z.ltb_ge; unfold len; simpl length; lia).
  assert (H2 : (1 <? len (AnyCmd cmd :: AnyString s1 :: List.map AnyString ss))
               = true) by (apply Z.ltb_lt; unfold len; simpl length; lia).
  rewrite H1, H2. monad. cbv [from1]. monad.
  change (AnyString s1 :: List.map AnyString ss)
    with (List.map AnyString (s1 :: ss)).
  rewrite prepended_strings.
  destruct (Run g cmd _) as [[[]|c|p] s']; try reflexivity;
    destruct (Exit g s') as [[[]|c|p] s'']; reflexivity.
Qed.

(** With the root alone in the entry, the root runs on its name alone. *)
Lemma Z_Run_bare (g : Globals) (cmd : ptr) (h : Heap) (o : list string)
    (ev : list Event) :
  Z_Commands g !! ExeName g = Some [AnyCmd cmd] ->
  Z_Run g (mkState h o ev) =
  (Run g cmd;; Exit g;; ExitError g (ErrUnmapped (ExeName g)))
    (mkState h [Name (h cmd)] ev).
Proof.
  intros Hv. unfold Z_Run. rewrite Hv. monad. simpl.
  destruct (Run g cmd _) as [[[]|c|p] s']; try reflexivity;
    destruct (Exit g s') as [[[]|c|p] s'']; reflexivity.
Qed.

(** X13.  Without an entry for the name of the executable, the error of
    an unmapped multicall command is logged, and the process exits with
    status 1 unless exits are disabled. *)
Lemma Z_Run_unmapped (g : Globals) (s : State) :
  Z_Commands g !! ExeName g = None ->
  Z_Run g s =
  (if DoNotExit g then Ok tt else Exited 1,
   mkState (heap s) (osArgs s) (events s ++ [EvLog (ErrUnmapped (ExeName g))])).
Proof.
  intros Hv. unfold Z_Run, ExitError. rewrite Hv. monad. simpl.
  destruct (DoNotExit g); reflexivity.
Qed.

(** C7: the code at the failing input.  The executable ls is mapped to the
    root alone and invoked with the argument -l: the action of the root is
    called on no argument.  Mapped to the root and the string -a, it is
    called on -a and -l. *)
Example Z_Run_drops_the_arguments :
  Z_Commands ls_bare !! ExeName ls_bare = Some [AnyCmd 0%nat] /\
  events (snd (Z_Run ls_bare (mkState lister ["ls"; "-l"] []))) =
  [EvCall 0%nat []] /\
  events (snd (Z_Run ls_all (mkState lister ["ls"; "-l"] []))) =
  [EvCall 0%nat ["-a"; "-l"]].
Proof. vm_compute. conjs; reflexivity. Qed.

(** * Further properties of the code *)

(** ** [Seek] and [Path] *)

Lemma trail_transport (h h' : Heap) (x : ptr) (toks : list string)
    (nodes : list ptr) :
  (forall p n, Resolve h' p n = Resolve h p n) ->
  trail h x toks nodes -> trail h' x toks nodes.
Proof.
  intros Hr Ht. induction Ht as [x|x t c ts nodes Hres _ IH].
  - constructor.
  - apply trail_cons; [now rewrite Hr | exact IH].
Qed.

Lemma last_cons {A : Type} (a d : A) (l : list A) :
  List.last (a :: l) d = List.last l a.
Proof.
  revert a d. induction l as [|b l IH]; intros a d; [reflexivity|].
  change (List.last (b :: l) d = List.last (b :: l) a).
  now rewrite (IH b d), (IH b a).
Qed.

Lemma callers_done (fuel : nat) (h : Heap) (acc : list string) :
  callers fuel h None acc = Some acc.
Proof. destruct fuel; reflexivity. Qed.

(** The loop of [Seek] writes the [Caller] of the nodes it passes through
    and of no other, each to the node before it. *)
Lemma seek_loop_trail (ts : list string) :
  forall (h : Heap) (c : ptr) (nodes : list ptr),
  trail h c ts nodes -> List.NoDup (c :: nodes) ->
  exists h',
    seek_loop h c ts = (h', List.last nodes c, []) /\
    (forall p, ~ In p nodes -> h' p = h p) /\
    (forall p, Name (h' p) = Name (h p)) /\
    (forall fuel acc,
       callers (length nodes + fuel) h' (Some (List.last nodes c)) acc =
       callers fuel h' (Some c)
               (List.map (fun p => Name (h p)) nodes ++ acc)).
Proof.
  induction ts as [|t ts IH]; intros h c nodes Ht Hnd.
  - inversion Ht; subst. exists h. simpl. conjs; reflexivity.
  - inversion Ht as [|x t' c1 ts' nodes' Hres Ht']; subst.
    rewrite last_cons. simpl seek_loop. rewrite Hres.
    set (h1 := store h c1 (set_Caller (Some c) (h c1))).
    assert (Hr1 : forall p n, Resolve h1 p n = Resolve h p n)
      by (intros; apply Resolve_set_Caller).
    assert (Hnd' : List.NoDup (c1 :: nodes')) by now inversion Hnd.
    assert (Hc : c <> c1 /\ ~ In c nodes').
    { inversion Hnd as [|? ? Hnot _]; subst. split.
      - intros ->. apply Hnot. now left.
      - intros Hin. apply Hnot. now right. }
    assert (Hc1 : ~ In c1 nodes') by now inversion Hnd'.
    destruct (IH h1 c1 nodes' (trail_transport h h1 _ _ _ Hr1 Ht') Hnd')
      as (h' & Hs & Hkeep & Hname & Hcall).
    assert (Hname1 : forall p, Name (h1 p) = Name (h p))
      by (intros p; now destruct (same_tree_set_Caller h c1 (Some c) p)).
    exists h'. conjs.
    + exact Hs.
    + intros p Hp. rewrite Hkeep by (intros Hin; apply Hp; now right).
      apply store_other. intros ->. apply Hp. now left.
    + intros p. now rewrite Hname, Hname1.
    + intros fuel acc. simpl length.
      replace (S (length nodes') + fuel)%nat
        with (length nodes' + S fuel)%nat by lia.
      rewrite Hcall. simpl callers.
      rewrite (Hkeep c1 Hc1). unfold h1 at 1 2. rewrite store_same. simpl.
      rewrite (List.map_ext (fun p => Name (h1 p)) (fun p => Name (h p)) Hname1).
      reflexivity.
Qed.

(** X1.  When the root of the walk has no caller and the tokens are
    resolved through nodes that are pairwise distinct and distinct from the
    root, [Seek] ends in the last of them with no argument left, and [Path]
    of that node in the store that [Seek] leaves is the names of the nodes
    passed through, in order, for any fuel not less than their number. *)
Theorem Path_after_Seek (h : Heap) (x : ptr) (toks : list string)
    (nodes : list ptr) :
  trail h x toks nodes -> List.NoDup (x :: nodes) -> Caller (h x) = None ->
  exists h',
    Seek h x toks = (h', List.last nodes x, []) /\
    forall fuel,
      Path (length nodes + fuel) h' (List.last nodes x) =
      Some (List.map (fun p => Name (h p)) nodes).
Proof.
  intros Ht Hnd Hroot.
  assert (Hx : ~ In x nodes) by now inversion Hnd.
  destruct (seek_loop_trail toks h x nodes Ht Hnd)
    as (h' & Hs & Hkeep & Hname & Hcall).
  exists h'. split.
  - unfold Seek. destruct (Commands (h x)) eqn:Hcs; [exact Hs|].
    inversion Ht as [|x' t c ts nodes' Hres _]; subst.
    + simpl in Hs. injection Hs as <-. reflexivity.
    + unfold Resolve in Hres. rewrite Hcs in Hres. discriminate Hres.
  - intros fuel. unfold Path.
    change (callers (length nodes + fuel) h'
              (Caller (h' (List.last nodes x)))
              [Name (h' (List.last nodes x))])
      with (callers (S (length nodes + fuel)) h'
              (Some (List.last nodes x)) []).
    replace (S (length nodes + fuel)) with (length nodes + S fuel)%nat by lia.
    rewrite Hcall. simpl callers.
    rewrite (Hkeep x Hx), Hroot, callers_done, app_nil_r. reflexivity.
Qed.

Lemma Path_after_Seek_witness :
  trail nested 0%nat ["a"; "build"] [1%nat; 2%nat] /\
  exists h',
    Seek nested 0%nat ["a"; "build"] = (h', 2%nat, []) /\
    forall fuel, Path (2 + fuel) h' 2%nat = Some ["a"; "build"].
Proof.
  assert (Ht : trail nested 0%nat ["a"; "build"] [1%nat; 2%nat]).
  { apply trail_cons; [reflexivity|].
    apply trail_cons; [reflexivity|]. constructor. }
  split; [exact Ht|].
  apply (Path_after_Seek nested 0%nat ["a"; "build"] [1%nat; 2%nat] Ht).
  - repeat constructor; simpl; intuition discriminate.
  - reflexivity.
Defined.

Lemma Seek_named_path_witness :
  named_path nested 0%nat ["a"; "build"] 2%nat /\
  exists h', Seek nested 0%nat ["a"; "build"] = (h', 2%nat, []).
Proof.
  assert (Hp : named_path nested 0%nat ["a"; "build"] 2%nat).
  { apply named_cons with 1%nat.
    - left; reflexivity.
    - reflexivity.
    - intros c' [<-|[]] _. reflexivity.
    - apply named_cons with 2%nat; [left; reflexivity | reflexivity | |constructor].
      intros c' [<-|[]] _. reflexivity. }
  split; [exact Hp|].
  exact (Seek_named_path nested 0%nat ["a"; "build"] 2%nat Hp).
Defined.

(** ** The alias cache and [Resolve] *)

Lemma cache_sound (h : Heap) (cs : list ptr) :
  forall (m : gmap string ptr) (n : string) (c : ptr),
  fold_left (cache_child h) cs m !! n = Some c ->
  (In c cs /\ carries h n c = true) \/ m !! n = Some c.
Proof.
  induction cs as [|c0 cs IH]; intros m n c Hl; simpl in Hl; [now right|].
  destruct (IH _ _ _ Hl) as [[Hin Hc]|Hm].
  - left. split; [now right | exact Hc].
  - rewrite cache_child_lookup in Hm.
    destruct (carries h n c0) eqn:Hc0.
    + injection Hm as <-. left. split; [now left | exact Hc0].
    + now right.
Qed.

Lemma cache_complete (h : Heap) (cs : list ptr) :
  forall (m : gmap string ptr) (n : string),
  is_Some (m !! n) \/ (exists c, In c cs /\ carries h n c = true) ->
  is_Some (fold_left (cache_child h) cs m !! n).
Proof.
  induction cs as [|c0 cs IH]; intros m n Hor; simpl.
  - destruct Hor as [Hm|(c & [] & _)]. exact Hm.
  - apply IH. rewrite cache_child_lookup.
    destruct (carries h n c0) eqn:Hc0; [left; eauto|].
    destruct Hor as [Hm|(c & [<-|Hin] & Hc)].
    + now left.
    + congruence.
    + right. eauto.
Qed.

(** X2.  Once [cacheAliases] has rebuilt the alias cache of a node,
    [Resolve] at that node returns only a child that has the name asked for
    or declares it as an alias, and it returns one whenever such a child
    exists. *)
Theorem Resolve_finds_what_answers (h : Heap) (x : ptr) (n : string) :
  (forall c, Resolve (cacheAliases h x) x n = Some c -> answers h x n c) /\
  ((exists c, answers h x n c) ->
   exists c, Resolve (cacheAliases h x) x n = Some c).
Proof.
  assert (Hfind : forall cs,
            List.find (fun c0 => String.eqb n (Name (cacheAliases h x c0))) cs =
            List.find (fun c0 => String.eqb n (Name (h c0))) cs).
  { intros cs. apply find_pointwise. intros c0.
    now destruct (same_tree_cacheAliases h x c0) as (-> & _). }
  unfold Resolve, answers.
  destruct (same_tree_cacheAliases h x x) as (_ & _ & -> & _).
  destruct (Commands (h x)) as [cs|] eqn:Hcs; simpl.
  - rewrite Hfind, (cacheAliases_table h x cs Hcs), alias_table_fold.
    destruct (List.find _ cs) as [c0|] eqn:Hf.
    + split.
      * intros c Heq. injection Heq as <-.
        apply List.find_some in Hf as [Hin Hn]. apply String.eqb_eq in Hn.
        split; [exact Hin | now left].
      * intros _. eauto.
    + split.
      * intros c Hl. destruct (cache_sound h cs ∅ n c Hl) as [[Hin Hc]|He].
        -- split; [exact Hin | right; now apply existsb_eqb_In].
        -- rewrite lookup_empty in He. discriminate He.
      * intros (c & Hin & [Hname|Hal]).
        -- pose proof (List.find_none _ _ Hf c Hin) as Hno. simpl in Hno.
           rewrite Hname, String.eqb_refl in Hno. discriminate Hno.
        -- destruct (cache_complete h cs ∅ n) as [c' Hc'].
           ++ right. exists c. split; [exact Hin | now apply existsb_eqb_In].
           ++ eauto.
  - split; [intros c Heq; discriminate Heq | intros (c & [] & _)].
Qed.

(** A child that is the last to declare an alias no child is named by
    answers for it once the cache is rebuilt. *)
Lemma Resolve_last_carrier (h : Heap) (x : ptr) (n : string)
    (pre post : list ptr) (c : ptr) :
  Commands (h x) = Some (pre ++ c :: post) ->
  (forall p, In p (pre ++ c :: post) -> Name (h p) <> n) ->
  carries h n c = true ->
  (forall p, In p post -> carries h n p = false) ->
  Resolve (cacheAliases h x) x n = Some c.
Proof.
  intros Hcs Hname Hc Hpost. unfold Resolve.
  destruct (same_tree_cacheAliases h x x) as (_ & _ & -> & _).
  rewrite Hcs.
  rewrite (find_pointwise
             (fun c0 => String.eqb n (Name (cacheAliases h x c0)))
             (fun c0 => String.eqb n (Name (h c0)))).
  - rewrite find_none_all.
    + rewrite (cacheAliases_table h x _ Hcs), alias_table_fold.
      now apply cache_last.
    + intros p Hp. apply String.eqb_neq. intros ->. now apply (Hname p).
  - intros c0. now destruct (same_tree_cacheAliases h x c0) as (-> & _).
Qed.

(** ** [Add] *)

Lemma Add_other (h : Heap) (x c p : ptr) (name : string) (al : slice string) :
  p <> c -> p <> x -> Add h x c name al p = h p.
Proof.
  intros Hc Hx. unfold Add. now rewrite !store_other.
Qed.

Lemma Add_child (h : Heap) (x c : ptr) (name : string) (al : slice string) :
  c <> x ->
  Name (Add h x c name al c) = name /\ Aliases (Add h x c name al c) = al.
Proof.
  intros Hne. unfold Add. rewrite store_other, store_same by exact Hne.
  split; reflexivity.
Qed.

Lemma Add_parent (h : Heap) (x c : ptr) (name : string) (al : slice string) :
  c <> x ->
  Commands (Add h x c name al x) = Some (elems (Commands (h x)) ++ [c]) /\
  Name (Add h x c name al x) = Name (h x) /\
  _aliases (Add h x c name al x) = _aliases (h x).
Proof.
  intros Hne. unfold Add. rewrite store_same.
  rewrite store_other by (intros Heq; apply Hne; now symmetry).
  conjs; reflexivity.
Qed.

Lemma Add_names (h : Heap) (x c p : ptr) (name : string) (al : slice string) :
  c <> x -> p <> c -> Name (Add h x c name al p) = Name (h p).
Proof.
  intros Hne Hp. destruct (Nat.eq_dec p x) as [->|Hx].
  - now destruct (Add_parent h x c name al Hne) as (_ & -> & _).
  - now rewrite Add_other.
Qed.

Lemma find_app_found {A : Type} (f : A -> bool) (l l' : list A) (a : A) :
  List.find f l = Some a -> List.find f (l ++ l') = Some a.
Proof.
  induction l as [|b l IH]; simpl; [discriminate|].
  destruct (f b); [trivial | exact IH].
Qed.

(** X3.  [Add] on a node [x], allocating its new child at an address [c]
    that is neither [x] nor one of its children: the child is appended
    after the children there were, with the name and aliases given; every
    name that a child bore resolves as before; the new name resolves to the
    new child when no child bore it; and each alias given that names no
    child resolves to the new child once the alias cache is rebuilt. *)
Theorem Add_then_Resolve (h : Heap) (x c : ptr) (name : string)
    (al : slice string) :
  c <> x -> ~ In c (elems (Commands (h x))) ->
  Commands (Add h x c name al x) = Some (elems (Commands (h x)) ++ [c]) /\
  (forall n d,
     In d (elems (Commands (h x))) -> Name (h d) = n ->
     Resolve (Add h x c name al) x n = Resolve h x n) /\
  ((forall d, In d (elems (Commands (h x))) -> Name (h d) <> name) ->
   Resolve (Add h x c name al) x name = Some c) /\
  (forall a,
     In a (elems al) -> a <> name ->
     (forall d, In d (elems (Commands (h x))) -> Name (h d) <> a) ->
     Resolve (cacheAliases (Add h x c name al) x) x a = Some c).
Proof.
  intros Hne Hfresh.
  destruct (Add_parent h x c name al Hne) as (Hcs & _ & Hal).
  destruct (Add_child h x c name al Hne) as (Hcn & Hca).
  assert (Hold : forall n cs,
            (forall d, In d cs -> d <> c) ->
            List.find (fun c0 => String.eqb n (Name (Add h x c name al c0))) cs =
            List.find (fun c0 => String.eqb n (Name (h c0))) cs).
  { intros n cs Hcs'. induction cs as [|d cs IH]; simpl; [reflexivity|].
    rewrite Add_names by (auto; apply Hcs'; now left).
    rewrite IH by (intros; apply Hcs'; now right). reflexivity. }
  assert (Hdiff : forall d, In d (elems (Commands (h x))) -> d <> c)
    by (intros d Hd ->; contradiction).
  conjs.
  - exact Hcs.
  - intros n d Hd Hn. unfold Resolve. rewrite Hcs.
    destruct (Commands (h x)) as [cs|] eqn:Hx; [|destruct Hd]. simpl in *.
    destruct (List.find (fun c0 => String.eqb n (Name (h c0))) cs)
      as [d0|] eqn:Hf.
    + rewrite (find_app_found _ cs [c] d0); [reflexivity|].
      now rewrite Hold.
    + pose proof (List.find_none _ _ Hf d Hd) as Hno. simpl in Hno.
      rewrite Hn, String.eqb_refl in Hno. discriminate Hno.
  - intros Hnew. unfold Resolve. rewrite Hcs.
    rewrite (find_first _ (elems (Commands (h x))) [] c); [reflexivity| |].
    + intros p Hp. rewrite Add_names by auto.
      apply String.eqb_neq. intros Heq. now apply (Hnew p Hp).
    + rewrite Hcn. apply String.eqb_refl.
  - intros a Ha Hname Hnone.
    apply (Resolve_last_carrier _ x a (elems (Commands (h x))) [] c).
    + exact Hcs.
    + intros p Hp. apply in_app_or in Hp as [Hp|[<-|[]]].
      * rewrite Add_names by auto. now apply Hnone.
      * now rewrite Hcn.
    + unfold carries. rewrite Hca. now apply existsb_eqb_In.
    + intros p [].
Qed.

Lemma Add_then_Resolve_witness :
  3%nat <> 0%nat /\
  Resolve (Add builder 0%nat 3%nat "deploy" (Some ["d"])) 0%nat "deploy"
  = Some 3%nat /\
  Resolve (cacheAliases (Add builder 0%nat 3%nat "deploy" (Some ["d"])) 0%nat)
          0%nat "d" = Some 3%nat.
Proof.
  assert (Hne : 3%nat <> 0%nat) by discriminate.
  assert (Hfresh : ~ In 3%nat (elems (Commands (builder 0%nat))))
    by (simpl; intuition discriminate).
  destruct (Add_then_Resolve builder 0%nat 3%nat "deploy" (Some ["d"])
              Hne Hfresh) as (_ & _ & Hname & Halias).
  split; [exact Hne|]. split.
  - apply Hname. intros d [<-|[<-|[]]]; discriminate.
  - apply Halias.
    + left; reflexivity.
    + discriminate.
    + intros d [<-|[<-|[]]]; discriminate.
Defined.

(** ** [Legal] *)

Lemma append_filled_r (s t : string) : t <> "" -> (s ++ t)%string <> "".
Proof.
  intros Ht. destruct s as [|c s]; [exact Ht|].
  rewrite append_cons. discriminate.
Qed.

Lemma filled_true (s : string) : filled s = true <-> s <> "".
Proof.
  unfold filled. rewrite negb_true_iff. apply String.eqb_neq.
Qed.

Lemma filled_false (s : string) : filled s = false <-> s = "".
Proof.
  unfold filled. rewrite negb_false_iff. apply String.eqb_eq.
Qed.

(** X4.  [Legal] is the empty string exactly when [Copyright] is empty,
    whatever [Version] and [License] hold.  Otherwise it is the name, the
    version in parentheses if there is one, the copyright, and on a second
    line the license if there is one: the last case of the switch, name
    and copyright on two lines, is never taken. *)
Theorem Legal_shows_what_is_filled (name : string) (n : Notice) :
  (Legal name n = "" <-> Copyright n = "") /\
  (Copyright n <> "" ->
   Legal name n =
   (name ++ (if filled (Version n) then " (" ++ Version n ++ ") " else " ")
         ++ Copyright n
         ++ (if filled (License n) then LF ++ "License " ++ License n else ""))
   %string).
Proof.
  assert (Hform : Copyright n <> "" ->
     Legal name n =
     (name ++ (if filled (Version n) then " (" ++ Version n ++ ") " else " ")
           ++ Copyright n
           ++ (if filled (License n) then LF ++ "License " ++ License n else ""))
     %string).
  { intros Hc. apply filled_true in Hc. unfold Legal. rewrite Hc.
    destruct (filled (License n)), (filled (Version n)); simpl;
      rewrite ?append_assoc, ?append_empty_r; reflexivity. }
  split; [|exact Hform]. split.
  - intros Hl. destruct (String.eqb_spec (Copyright n) "") as [|Hc];
      [assumption|].
    rewrite (Hform Hc) in Hl. exfalso. revert Hl.
    apply append_filled_r.
    destruct (filled (Version n)).
    + rewrite !append_assoc. discriminate.
    + discriminate.
  - intros Hc. apply filled_false in Hc. unfold Legal. now rewrite Hc.
Qed.

(** ** [ArgsFrom] and [ArgsOrIn] *)

Lemma between_ascii (lo hi b : Z) :
  b < 128 -> 128 <= lo -> between lo hi b = false.
Proof.
  intros Hb Hlo. unfold between.
  destruct (Z.leb_spec lo b); [lia | reflexivity].
Qed.

(** An ASCII byte is never read as part of the rune before it. *)
Lemma decode_before_ascii (s : string) (c : ascii) (t : string) :
  s <> "" -> byte c < 128 ->
  DecodeRuneInString (s ++ String c t) = DecodeRuneInString s.
Proof.
  intros Hne Hc.
  assert (H160 : forall hi, between 160 hi (byte c) = false)
    by (intros; apply between_ascii; lia).
  assert (H144 : forall hi, between 144 hi (byte c) = false)
    by (intros; apply between_ascii; lia).
  assert (H128 : forall hi, between 128 hi (byte c) = false)
    by (intros; apply between_ascii; lia).
  destruct s as [|c0 [|c1 [|c2 [|c3 s]]]]; [contradiction| | | |];
    destruct t as [|d1 [|d2 t]];
    rewrite ?append_cons, ?append_empty_l; unfold DecodeRuneInString;
    cbv zeta;
    repeat match goal with
           | |- context [if ?b then _ else _] =>
               lazymatch b with
               | between _ _ (byte c) => fail
               | _ => destruct b eqn:?
               end
           end;
    rewrite ?H160, ?H144, ?H128; reflexivity.
Qed.

Lemma take_append (n : nat) :
  forall s t, (n <= String.length s)%nat -> take n (s ++ t) = take n s.
Proof.
  induction n as [|n IH]; intros [|c s] t Hn; simpl in Hn; try lia.
  - now destruct t.
  - reflexivity.
  - rewrite append_cons. simpl. rewrite IH by lia. reflexivity.
Qed.

Lemma drop_append (n : nat) :
  forall s t, (n <= String.length s)%nat ->
  drop n (s ++ t) = (drop n s ++ t)%string.
Proof.
  induction n as [|n IH]; intros [|c s] t Hn; simpl in Hn; try lia.
  - reflexivity.
  - reflexivity.
  - rewrite append_cons. simpl. apply IH. lia.
Qed.

(** An ASCII byte starts a rune wherever it stands. *)
Lemma runes_before_ascii (c : ascii) (t : string) :
  byte c < 128 ->
  forall s, runes (s ++ String c t) = runes s ++ runes (String c t).
Proof.
  intros Hc s.
  remember (String.length s) as n eqn:Hn. revert s Hn.
  induction n as [n IH] using lt_wf_ind. intros s Hn.
  destruct s as [|c0 s]; [reflexivity|].
  rewrite append_cons, (runes_cons c0 s), (runes_cons c0 (s ++ String c t)).
  rewrite <- append_cons.
  rewrite decode_before_ascii by (discriminate || assumption).
  pose proof (width_pos (String c0 s) ltac:(discriminate)) as Hw.
  pose proof (width_le (String c0 s)) as Hle.
  destruct (DecodeRuneInString (String c0 s)) as [r w]. cbn [fst snd] in *.
  rewrite take_append, drop_append by assumption.
  rewrite (IH (String.length (drop w (String c0 s)))); [reflexivity| |reflexivity].
  subst n. rewrite length_drop. simpl. lia.
Qed.

Lemma runes_space (t : string) : runes (String " " t) = (32, " ") :: runes t.
Proof. rewrite runes_cons. reflexivity. Qed.

Lemma runes_filled (s : string) : s <> "" -> runes s <> [].
Proof.
  destruct s as [|c t]; [congruence|]. intros _. now rewrite runes_cons.
Qed.

Lemma space_free_runes (w : string) :
  space_free w = true -> Forall (fun r => is_space r = false) (runes w).
Proof.
  unfold space_free. intros Hw. apply List.Forall_forall. intros r Hr.
  apply (proj1 (forallb_forall _ _) Hw) in Hr. now apply negb_true_iff.
Qed.

(** A word without white space is its own single field. *)
Lemma Fields_last (w : string) :
  w <> "" -> space_free w = true -> Fields w = [w].
Proof.
  intros Hne Hw. unfold Fields, FieldsFunc.
  rewrite <- (app_nil_r (runes w)).
  rewrite spans_word by (now apply runes_filled || now apply space_free_runes).
  cbn [spans]. now rewrite runes_bytes.
Qed.

(** A word followed by a space is the first field. *)
Lemma Fields_word (w s : string) :
  w <> "" -> space_free w = true ->
  Fields (w ++ String " " s) = w :: Fields s.
Proof.
  intros Hne Hw. unfold Fields, FieldsFunc.
  rewrite runes_before_ascii by reflexivity.
  rewrite spans_word by (now apply runes_filled || now apply space_free_runes).
  rewrite runes_space. cbn [spans]. now rewrite runes_bytes.
Qed.

Lemma Fields_concat (ws : list string) :
  Forall (fun w => w <> "" /\ space_free w = true) ws ->
  Fields (String.concat " " ws) = ws.
Proof.
  induction ws as [|w ws IH]; intros Hall; [reflexivity|].
  inversion Hall as [|w' ws' [Hne Hw] Hrest]; subst.
  destruct ws as [|w2 ws].
  - simpl. now apply Fields_last.
  - change (String.concat " " (w :: w2 :: ws))
      with (w ++ String " " (String.concat " " (w2 :: ws)))%string.
    rewrite Fields_word by assumption.
    now rewrite IH.
Qed.

Lemma last_byte_append (s t : string) :
  t <> "" -> last_byte (s ++ t) = last_byte t.
Proof.
  intros Ht. induction s as [|c s IH]; [reflexivity|].
  rewrite append_cons. simpl. rewrite IH.
  destruct (s ++ t)%string eqn:Hst; [|reflexivity].
  exfalso. revert Hst. now apply append_filled_r.
Qed.

Lemma last_byte_snoc (w : string) (c : ascii) :
  last_byte w = Some c -> exists v, w = (v ++ String c "")%string.
Proof.
  induction w as [|d w IH]; [discriminate|].
  destruct w as [|e w].
  - intros [= ->]. now exists "".
  - intros Hl. destruct (IH Hl) as (v & Hv). exists (String d v).
    now rewrite append_cons, <- Hv.
Qed.

(** A word without white space does not end in the space byte. *)
Lemma last_byte_word (w : string) :
  space_free w = true -> last_byte w <> Some " "%char.
Proof.
  intros Hw Hl. apply last_byte_snoc in Hl as (v & ->).
  unfold space_free in Hw.
  rewrite runes_before_ascii, runes_space in Hw by reflexivity.
  rewrite forallb_app in Hw. apply andb_prop in Hw as [_ Hw].
  discriminate Hw.
Qed.

Lemma last_byte_concat (ws : list string) :
  ws <> [] ->
  Forall (fun w => w <> "" /\ space_free w = true) ws ->
  exists c, last_byte (String.concat " " ws) = Some c /\ c <> " "%char.
Proof.
  induction ws as [|w ws IH]; intros Hne Hall; [contradiction|].
  inversion Hall as [|w' ws' [Hw1 Hw2] Hrest]; subst.
  destruct ws as [|w2 ws].
  - simpl. pose proof (last_byte_word w Hw2) as Hl.
    destruct (last_byte w) as [c|] eqn:Hc.
    + exists c. split; [reflexivity | congruence].
    + destruct w as [|a [|b w]]; [contradiction | discriminate | ].
      exfalso. clear -Hc. revert a b Hc.
      induction w as [|d w IHw]; intros a b Hc; [discriminate|].
      apply (IHw b d). exact Hc.
  - change (String.concat " " (w :: w2 :: ws))
      with (w ++ (" " ++ String.concat " " (w2 :: ws)))%string.
    destruct IH as (c & Hl & Hs); [discriminate | exact Hrest |].
    exists c. split; [|exact Hs].
    rewrite last_byte_append by discriminate.
    rewrite last_byte_append; [exact Hl|].
    intros Heq. rewrite Heq in Hl. discriminate Hl.
Qed.

(** X5.  Arguments that are not empty and hold no white space come back
    from the line [ArgsOrIn] joins them into: [ArgsFrom] of that line is
    the arguments, with no empty token after them. *)
Theorem ArgsFrom_ArgsOrIn (input : string) (args : list string) :
  args <> [] ->
  Forall (fun w => w <> "" /\ space_free w = true) args ->
  ArgsFrom (ArgsOrIn input args) = args.
Proof.
  intros Hne Hall.
  assert (Hjoin : ArgsOrIn input args = String.concat " " args)
    by (destruct args; [contradiction | reflexivity]).
  rewrite Hjoin. unfold ArgsFrom.
  destruct (last_byte_concat args Hne Hall) as (c & Hl & Hs).
  destruct (String.eqb_spec (String.concat " " args) "") as [Heq|_].
  - rewrite Heq in Hl. discriminate Hl.
  - rewrite Hl, (Fields_concat args Hall).
    destruct (Ascii.eqb_spec c " ") as [->|_]; [congruence | reflexivity].
Qed.

Lemma ArgsFrom_ArgsOrIn_witness :
  ["yo"; "hi"; "there"] <> [] /\
  ArgsFrom (ArgsOrIn "" ["yo"; "hi"; "there"]) = ["yo"; "hi"; "there"].
Proof.
  assert (Hne : ["yo"; "hi"; "there"] <> []) by discriminate.
  split; [exact Hne|].
  apply (ArgsFrom_ArgsOrIn "" ["yo"; "hi"; "there"] Hne).
  repeat constructor; discriminate.
Defined.

(** ** [Cmd.Run]: the caller of the target *)

Lemma Caller_cacheAliases (h : Heap) (x p : ptr) :
  Caller (cacheAliases h x p) = Caller (h p).
Proof.
  unfold cacheAliases, store.
  destruct (Commands (h x)); destruct (Nat.eqb_spec p x) as [->|]; reflexivity.
Qed.

(** A run whose checks pass: the action is called, and the target has a
    caller from then on, the root of the run if it had none. *)
Lemma delegate_passing (g : Globals) (x cmd : ptr) (args : list string)
    (h2 : Heap) (a : list string) (ev : list Event) (f : Method) :
  Call (h2 cmd) = Some f ->
  (len args <? MinArgs (h2 cmd)) = false ->
  ReqConf (h2 x) && is_nil (Conf g) = false ->
  delegate g x cmd args (mkState h2 a ev) =
  (if DoNotExit g then Ok tt
   else Exited (if is_nil (f cmd args) then 0 else 1),
   mkState (if is_nil (Caller (h2 cmd))
            then store h2 cmd (set_Caller (Some x) (h2 cmd)) else h2)
           a (ev ++ EvCall cmd args :: after_call (f cmd args))).
Proof.
  intros Hcall Hmin Hconf. unfold delegate. monad.
  rewrite Hmin, Hconf. unfold invoke. monad.
  assert (Hcall' :
            Call (store h2 cmd (set_Caller (Some x) (h2 cmd)) cmd) = Some f)
    by (rewrite store_same; exact Hcall).
  unfold ExitError, Exit, after_call.
  destruct (is_nil (Caller (h2 cmd))); simpl;
    rewrite ?Hcall', ?Hcall; monad;
    destruct (f cmd args) as [msg|]; simpl;
    try destruct (String.eqb msg ""); simpl;
    destruct (DoNotExit g); simpl; rewrite <- ?app_assoc; reflexivity.
Qed.

Lemma TrapPanic_quiet {A : Type} (g : Globals) (body : M A) (s : State) :
  (forall p, fst (body s) <> Panicked p) -> TrapPanic g body s = body s.
Proof.
  unfold TrapPanic. destruct (body s) as [[a|c|p] s']; simpl; intros H;
    try reflexivity.
  now destruct (H p).
Qed.

Lemma Seek_unresolved (h : Heap) (x : ptr) (args : list string) :
  (forall t ts, args = t :: ts -> Resolve h x t = None) ->
  Seek h x args = (h, x, args).
Proof.
  intros Hno. unfold Seek. destruct (Commands (h x)); [|reflexivity].
  destruct args as [|t ts]; [reflexivity|].
  simpl. now rewrite (Hno t ts eq_refl).
Qed.

(** X6.  A root with an action, run on arguments the first of which is
    not one of its commands (or on none), its checks passing, is the target
    of its own run and, having had no caller, is made its own caller: in
    the store the action is called in, the walk of [Path] from the root
    never ends, whatever the fuel. *)
Theorem Run_root_is_its_own_caller (g : Globals) (x : ptr) (h : Heap)
    (prog : string) (rest : list string) (ev : list Event) (f : Method) :
  COMP_LINE g = "" ->
  Caller (h x) = None -> Call (h x) = Some f ->
  (forall t ts, shorthand (Z_Aliases g) rest = t :: ts ->
                Resolve (cacheAliases h x) x t = None) ->
  MinArgs (h x) <= len (shorthand (Z_Aliases g) rest) ->
  ReqConf (h x) = false \/ Conf g <> None ->
  events (snd (Run g x (mkState h (prog :: rest) ev))) =
    ev ++ EvCall x (shorthand (Z_Aliases g) rest)
       :: after_call (f x (shorthand (Z_Aliases g) rest)) /\
  Caller (heap (snd (Run g x (mkState h (prog :: rest) ev))) x) = Some x /\
  forall fuel,
    Path fuel (heap (snd (Run g x (mkState h (prog :: rest) ev)))) x = None.
Proof.
  intros Hline Hroot Hcall Hno Hmin Hconf.
  set (args := shorthand (Z_Aliases g) rest) in *.
  set (h1 := cacheAliases h x).
  pose proof (Seek_unresolved h1 x args Hno) as Hseek.
  rewrite (Run_plain g x h prog rest ev h1 x args Hline Hseek).
  destruct (same_tree_cacheAliases h x x) as (_ & _ & _ & Hc1 & Hm1 & Hr1 & _).
  fold h1 in Hc1, Hm1, Hr1.
  assert (Hdef : default_command g x x (mkState h1 (prog :: args) ev) =
                 (Ok x, mkState h1 (prog :: args) ev)).
  { unfold default_command. monad. now rewrite Hc1, Hcall. }
  assert (Hd := delegate_passing g x x args h1 (prog :: args) ev f).
  rewrite Hc1, Hm1, Hr1 in Hd.
  specialize (Hd Hcall).
  rewrite (proj2 (Z.ltb_ge _ _) Hmin) in Hd. specialize (Hd eq_refl).
  assert (Hg : ReqConf (h x) && is_nil (Conf g) = false).
  { destruct Hconf as [->|Hc]; [reflexivity|].
    destruct (Conf g); [apply andb_false_r | contradiction]. }
  specialize (Hd Hg).
  assert (Hroot1 : Caller (h1 x) = None)
    by (unfold h1; now rewrite Caller_cacheAliases).
  rewrite Hroot1 in Hd. simpl in Hd.
  rewrite TrapPanic_quiet; rewrite (bind_ok _ _ _ _ _ Hdef), Hd.
  - simpl. split; [reflexivity|].
    assert (Hown : Caller (store h1 x (set_Caller (Some x) (h1 x)) x) = Some x)
      by now rewrite store_same.
    split; [exact Hown|].
    intros fuel. now apply Path_of_own_caller.
  - intros p. simpl. destruct (DoNotExit g); discriminate.
Qed.

Lemma Run_root_is_its_own_caller_witness :
  Caller (lister 0%nat) = None /\
  forall fuel,
    Path fuel (heap (snd (Run plain 0%nat (mkState lister ["ls"; "-l"] []))))
         0%nat = None.
Proof.
  split; [reflexivity|].
  refine (proj2 (proj2 (Run_root_is_its_own_caller plain 0%nat lister
            "ls" ["-l"] [] succeed eq_refl eq_refl eq_refl _ _ _))).
  - intros t ts Heq. injection Heq as <- <-. reflexivity.
  - vm_compute. discriminate.
  - left. reflexivity.
Defined.

(** X7.  A run that resolves to a node without an action goes on with the
    first child of that node.  When that child has no action either and
    exits are enabled, the run logs that default commands require a Call
    function and exits with status 1, nothing called.  When it has one and
    the checks pass, the action of the child is called on the residual
    arguments, and the node resolved is the caller of the child from then
    on. *)
Theorem Run_defaults_to_first_child (g : Globals) (x : ptr) (h : Heap)
    (prog : string) (rest : list string) (ev : list Event) (cmd0 fcmd : ptr)
    (more : list ptr) (args : list string) :
  COMP_LINE g = "" ->
  resolved g h x rest = (cmd0, args) ->
  Call (h cmd0) = None -> elems (Commands (h cmd0)) = fcmd :: more ->
  (Call (h fcmd) = None -> DoNotExit g = false ->
   fst (Run g x (mkState h (prog :: rest) ev)) = Exited 1 /\
   events (snd (Run g x (mkState h (prog :: rest) ev))) =
   ev ++ [EvLog ErrDefaultCall]) /\
  (forall f,
     Call (h fcmd) = Some f -> MinArgs (h fcmd) <= len args ->
     ReqConf (h x) = false \/ Conf g <> None ->
     events (snd (Run g x (mkState h (prog :: rest) ev))) =
     ev ++ EvCall fcmd args :: after_call (f fcmd args) /\
     Caller (heap (snd (Run g x (mkState h (prog :: rest) ev))) fcmd) =
     Some cmd0).
Proof.
  intros Hline Hres Hcall0 Hcs.
  destruct (resolved_Seek g h x rest cmd0 args Hres) as (h1 & Hseek & Ht1).
  rewrite (Run_plain g x h prog rest ev h1 cmd0 args Hline Hseek).
  destruct (Ht1 cmd0) as (_ & _ & Hcs1 & Hcall1 & _).
  destruct (Ht1 fcmd) as (_ & _ & _ & Hcallf & Hminf & _).
  destruct (Ht1 x) as (_ & _ & _ & _ & _ & Hreq & _).
  rewrite <- Hcall1 in Hcall0. rewrite <- Hcs1 in Hcs.
  set (a := prog :: shorthand (Z_Aliases g) rest).
  split.
  - intros Hnone Hexit. rewrite <- Hcallf in Hnone.
    assert (Hdef : default_command g x cmd0 (mkState h1 a ev) =
                   (Exited 1, mkState h1 a (ev ++ [EvLog ErrDefaultCall]))).
    { unfold default_command, ExitError. monad.
      rewrite Hcall0, Hcs, Hnone. simpl. now rewrite Hexit. }
    rewrite TrapPanic_exited with (code := 1);
      rewrite (bind_exited _ _ _ _ _ Hdef); [|reflexivity].
    split; reflexivity.
  - intros f Hsome Hmin Hconf. rewrite <- Hcallf in Hsome.
    set (h2 := store h1 fcmd (set_Caller (Some cmd0) (h1 fcmd))).
    assert (Hdef : default_command g x cmd0 (mkState h1 a ev) =
                   (Ok fcmd, mkState h2 a ev)).
    { unfold default_command. monad. now rewrite Hcall0, Hcs, Hsome. }
    pose proof (same_tree_set_Caller h1 fcmd (Some cmd0)) as Ht2.
    fold h2 in Ht2.
    destruct (Ht2 fcmd) as (_ & _ & _ & Hcall2 & Hmin2 & _).
    destruct (Ht2 x) as (_ & _ & _ & _ & _ & Hreq2 & _).
    assert (Hd := delegate_passing g x fcmd args h2 a ev f).
    rewrite Hcall2, Hmin2, Hminf, Hreq2, Hreq in Hd.
    specialize (Hd Hsome).
    rewrite (proj2 (Z.ltb_ge _ _) Hmin) in Hd. specialize (Hd eq_refl).
    assert (Hg : ReqConf (h x) && is_nil (Conf g) = false).
    { destruct Hconf as [->|Hc]; [reflexivity|].
      destruct (Conf g); [apply andb_false_r | contradiction]. }
    specialize (Hd Hg).
    assert (Hc2 : Caller (h2 fcmd) = Some cmd0)
      by (unfold h2; now rewrite store_same).
    rewrite Hc2 in Hd. simpl in Hd.
    rewrite TrapPanic_quiet; rewrite (bind_ok _ _ _ _ _ Hdef), Hd.
    + simpl. split; [reflexivity | exact Hc2].
    + intros p. simpl. destruct (DoNotExit g); discriminate.
Qed.

Lemma Run_defaults_to_first_child_witness :
  resolved plain builder 0%nat [] = (0%nat, []) /\
  events (snd (Run plain 0%nat (mkState builder ["app"] []))) =
  [EvCall 1%nat []] /\
  Caller (heap (snd (Run plain 0%nat (mkState builder ["app"] []))) 1%nat) =
  Some 0%nat.
Proof.
  split; [reflexivity|].
  refine (proj2 (Run_defaults_to_first_child plain 0%nat builder "app" [] []
                   0%nat 1%nat [2%nat] [] eq_refl eq_refl eq_refl eq_refl)
            succeed eq_refl _ _).
  - vm_compute. discriminate.
  - left. reflexivity.
Defined.

(** ** How a run ends *)

Section Outcomes.
Variable g : Globals.
Variable Q : Z -> Prop.
Hypothesis Q0 : DoNotExit g = false -> Q 0.
Hypothesis Q1 : DoNotExit g = false -> Q 1.

Lemma exits_ret {A : Type} (a : A) : exits_with Q (ret a).
Proof. intros s. exact I. Qed.

Lemma exits_bind {A B : Type} (m : M A) (k : A -> M B) :
  exits_with Q m -> (forall a, exits_with Q (k a)) ->
  exits_with Q (bind m k).
Proof.
  intros Hm Hk s. unfold bind. specialize (Hm s).
  destruct (m s) as [[a|c|p] s']; simpl in *;
    [apply Hk | exact Hm | exact I].
Qed.

Lemma exits_throw {A : Type} (p : panic) : exits_with Q (@throw A p).
Proof. intros s. exact I. Qed.

Lemma exits_emit (e : Event) : exits_with Q (emit e).
Proof. intros s. exact I. Qed.

Lemma exits_put_heap (h : Heap) : exits_with Q (put_heap h).
Proof. intros s. exact I. Qed.

Lemma exits_put_osArgs (a : list string) : exits_with Q (put_osArgs a).
Proof. intros s. exact I. Qed.

Lemma exits_get_heap : exits_with Q get_heap.
Proof. intros s. exact I. Qed.

Lemma exits_get_osArgs : exits_with Q get_osArgs.
Proof. intros s. exact I. Qed.

Lemma exits_from1 (a : list string) : exits_with Q (from1 a).
Proof. intros s. destruct a; exact I. Qed.

Lemma exits_when (c : bool) (m : M unit) :
  exits_with Q m -> exits_with Q (when c m).
Proof. intros Hm. destruct c; [exact Hm | apply exits_ret]. Qed.

Lemma exits_Exit : exits_with Q (Exit g).
Proof.
  intros s. unfold Exit. destruct (DoNotExit g) eqn:Hd; simpl;
    [exact I | now apply Q0].
Qed.

Lemma exits_ExitError (e : error) : exits_with Q (ExitError g e).
Proof.
  unfold ExitError. apply exits_bind.
  - apply exits_when, exits_emit.
  - intros _ s. destruct (DoNotExit g) eqn:Hd; simpl;
      [exact I | now apply Q1].
Qed.

Lemma exits_invoke (cmd : ptr) (args : list string) :
  exits_with Q (invoke cmd args).
Proof.
  unfold invoke. apply exits_bind; [apply exits_get_heap|]. intros h.
  destruct (Call (h cmd)); [|apply exits_throw].
  apply exits_bind; [apply exits_emit | intros; apply exits_ret].
Qed.

Lemma exits_default_command (x cmd0 : ptr) :
  exits_with Q (default_command g x cmd0).
Proof.
  unfold default_command. apply exits_bind; [apply exits_get_heap|].
  intros h. destruct (Call (h cmd0)); [apply exits_ret|].
  destruct (elems (Commands (h cmd0))).
  - apply exits_bind; [apply exits_ExitError | intros; apply exits_ret].
  - apply exits_bind; [apply exits_when, exits_ExitError|]. intros _.
    apply exits_bind; [apply exits_put_heap | intros; apply exits_ret].
Qed.

Lemma exits_delegate (x cmd : ptr) (args : list string) :
  exits_with Q (delegate g x cmd args).
Proof.
  unfold delegate. apply exits_bind; [apply exits_get_heap|]. intros h.
  apply exits_bind; [apply exits_when, exits_ExitError|]. intros _.
  apply exits_bind; [apply exits_when, exits_ExitError|]. intros _.
  apply exits_bind; [apply exits_when, exits_put_heap|]. intros _.
  apply exits_bind; [apply exits_invoke|]. intros err.
  apply exits_bind; [|intros; apply exits_Exit].
  destruct err; [apply exits_ExitError | apply exits_ret].
Qed.

Lemma exits_dispatch (x : ptr) : exits_with Q (dispatch g x).
Proof.
  unfold dispatch. apply exits_bind; [apply exits_get_osArgs|]. intros a.
  apply exits_bind; [apply exits_from1|]. intros rest.
  apply exits_bind; [apply exits_get_heap|]. intros h.
  destruct (Seek h x rest) as [[h1 cmd0] args].
  apply exits_bind; [apply exits_put_heap|]. intros _.
  apply exits_bind; [apply exits_default_command|]. intros cmd.
  apply exits_delegate.
Qed.

Lemma exits_complete (x : ptr) : exits_with Q (complete g x).
Proof.
  unfold complete. apply exits_bind; [apply exits_from1|]. intros rest.
  apply exits_bind; [apply exits_get_heap|]. intros h.
  destruct (Seek h x rest) as [[h1 cmd] args].
  apply exits_bind; [apply exits_put_heap|]. intros _.
  apply exits_bind.
  - apply exits_when. apply exits_bind.
    + apply exits_when.
      destruct (_ ++ _) as [|l0 l]; [apply exits_ret|].
      destruct (Z_Aliases g !! l0); [|apply exits_ret].
      apply exits_bind; [apply exits_emit | intros; apply exits_Exit].
    + intros _. apply exits_bind; [apply exits_emit | intros; apply exits_Exit].
  - intros _. destruct (Completer (h1 cmd)); [|apply exits_throw].
    apply exits_bind; [apply exits_emit|]. intros _.
    apply exits_bind; [apply exits_emit | intros; apply exits_Exit].
Qed.

(** The body of [Cmd.Run], before [TrapPanic]. *)
Lemma exits_Run_body (x : ptr) :
  exits_with Q
    (h <- get_heap;;
     put_heap (cacheAliases h x);;
     a <- get_osArgs;;
     put_osArgs (expandArgs (Z_Aliases g) a);;
     when (negb (String.eqb (COMP_LINE g) "")) (complete g x);;
     dispatch g x).
Proof.
  apply exits_bind; [apply exits_get_heap|]. intros h.
  apply exits_bind; [apply exits_put_heap|]. intros _.
  apply exits_bind; [apply exits_get_osArgs|]. intros a.
  apply exits_bind; [apply exits_put_osArgs|]. intros _.
  apply exits_bind; [apply exits_when, exits_complete|]. intros _.
  apply exits_dispatch.
Qed.

Lemma exits_prepended (vs : list any) : exits_with Q (prepended g vs).
Proof.
  induction vs as [|a vs IH]; simpl; [apply exits_ret|].
  apply exits_bind.
  - destruct a; try apply exits_ret;
      (apply exits_bind; [apply exits_ExitError | intros; apply exits_ret]).
  - intros s0. apply exits_bind; [exact IH | intros; apply exits_ret].
Qed.

End Outcomes.

Lemma returns_bind {A B : Type} (g : Globals) (m : M A) (k : A -> M B) :
  (forall a, returns_when_off g (k a)) -> returns_when_off g (bind m k).
Proof.
  intros Hk s b. unfold bind.
  destruct (m s) as [[a|c|p] s'] eqn:Hm; simpl; try discriminate.
  apply Hk.
Qed.

Lemma returns_Exit (g : Globals) : returns_when_off g (Exit g).
Proof.
  intros s a. unfold Exit. destruct (DoNotExit g); [reflexivity|].
  simpl. discriminate.
Qed.

Lemma returns_ExitError (g : Globals) (e : error) :
  returns_when_off g (ExitError g e).
Proof.
  unfold ExitError. apply returns_bind. intros _ s a.
  destruct (DoNotExit g); [reflexivity | simpl; discriminate].
Qed.

Lemma returns_delegate (g : Globals) (x cmd : ptr) (args : list string) :
  returns_when_off g (delegate g x cmd args).
Proof.
  unfold delegate. do 6 (apply returns_bind; intros ?). apply returns_Exit.
Qed.

Lemma returns_dispatch (g : Globals) (x : ptr) :
  returns_when_off g (dispatch g x).
Proof.
  unfold dispatch. do 3 (apply returns_bind; intros ?).
  destruct (Seek _ x _) as [[h1 cmd0] args].
  do 2 (apply returns_bind; intros ?). apply returns_delegate.
Qed.

Lemma Run_allowed (g : Globals) (x : ptr) (s : State) :
  allowed g (fst (Run g x s)).
Proof.
  unfold Run, TrapPanic.
  pose proof (exits_Run_body g
                (fun c => DoNotExit g = false /\ (c = 0 \/ c = 1))
                (fun H => conj H (or_introl eq_refl))
                (fun H => conj H (or_intror eq_refl)) x s) as He.
  assert (Hr : returns_when_off g
            (h <- get_heap;;
             put_heap (cacheAliases h x);;
             a <- get_osArgs;;
             put_osArgs (expandArgs (Z_Aliases g) a);;
             when (negb (String.eqb (COMP_LINE g) "")) (complete g x);;
             dispatch g x)).
  { do 5 (apply returns_bind; intros ?). apply returns_dispatch. }
  specialize (Hr s).
  destruct ((h <- get_heap;; _) s) as [[a|c|p] s']; simpl in *.
  - now apply (Hr a).
  - destruct He as [Hd Hc]. split; [exact Hc|].
    intros Hon. rewrite Hon in Hd. discriminate Hd.
  - destruct (AllowPanic g) eqn:Hp; simpl; [exact Hp|].
    split; [now right | intros _; split; [reflexivity | exact Hp]].
Qed.

Lemma exits_Run (g : Globals) (cmd : ptr) :
  exits_with (fun c => c = 0 \/ c = 1) (Run g cmd).
Proof.
  intros s. pose proof (Run_allowed g cmd s) as Ha.
  destruct (fst (Run g cmd s)); simpl in *; [exact I | apply Ha | exact I].
Qed.

Lemma exits_Z_Run (g : Globals) :
  exits_with (fun c => c = 0 \/ c = 1) (Z_Run g).
Proof.
  set (Q := fun c : Z => c = 0 \/ c = 1).
  assert (Q0 : DoNotExit g = false -> Q 0) by (intros _; now left).
  assert (Q1 : DoNotExit g = false -> Q 1) by (intros _; now right).
  unfold Z_Run. apply exits_bind; [|intros; now apply exits_ExitError].
  destruct (Z_Commands g !! ExeName g) as [v|]; [|apply exits_ret].
  apply exits_bind; [now apply exits_when, exits_ExitError|]. intros _.
  destruct v as [|v0 vrest]; [apply exits_throw|].
  apply exits_bind.
  - destruct v0; try apply exits_ret;
      (apply exits_bind; [now apply exits_ExitError | intros; apply exits_ret]).
  - intros [cmd|]; [|apply exits_throw].
    apply exits_bind; [apply exits_get_heap|]. intros h.
    apply exits_bind.
    + destruct (1 <? len (v0 :: vrest)); [|apply exits_ret].
      apply exits_bind; [apply exits_get_osArgs|]. intros a.
      apply exits_bind; [apply exits_from1|]. intros rest.
      apply exits_bind; [now apply exits_prepended | intros; apply exits_ret].
    + intros args. apply exits_bind; [apply exits_put_osArgs|]. intros _.
      apply exits_bind; [apply exits_Run | intros; now apply exits_Exit].
Qed.

(** X8.  However a run is set up, [Cmd.Run] ends the process with status 0
    or 1 only; it returns to its caller only when exits are disabled; a
    panic leaves it only when panics are let through; and with exits
    disabled it ends the process only for a panic it trapped, with status
    1.  The multicall [Run] likewise exits with status 0 or 1 only and
    returns only when exits are disabled. *)
Theorem runs_end_as_allowed (g : Globals) (x : ptr) (s : State) :
  allowed g (fst (Run g x s)) /\
  match fst (Z_Run g s) with
  | Ok _ => DoNotExit g = true
  | Exited code => code = 0 \/ code = 1
  | Panicked _ => True
  end.
Proof.
  split; [apply Run_allowed|].
  pose proof (exits_Z_Run g s) as He.
  assert (Hr : returns_when_off g (Z_Run g))
    by (unfold Z_Run; apply returns_bind; intros; apply returns_ExitError).
  specialize (Hr s).
  destruct (fst (Z_Run g s)) as [a|c|p]; [now apply (Hr a) | exact He | exact I].
Qed.

(** ** [Cmd.Run]: the completion context *)

(** X9.  In a completion context, with exits enabled, [Cmd.Run] calls no
    action and does not come to resolve [os.Args]: it prints candidates and
    exits with status 0.  The one other end is the panic of slicing an
    empty token list, for a line that holds white space only and does not
    end in a space, which is trapped to status 1 or let through. *)
Theorem Run_completes_without_calling (g : Globals) (x : ptr) (h : Heap)
    (o : list string) (ev : list Event) :
  COMP_LINE g <> "" -> DoNotExit g = false ->
  exists out,
    events (snd (Run g x (mkState h o ev))) = ev ++ out /\
    no_call out = true /\
    (fst (Run g x (mkState h o ev)) = Exited 0 \/
     (ArgsFrom (COMP_LINE g) = [] /\
      fst (Run g x (mkState h o ev)) =
      if AllowPanic g then Panicked OutOfRange else Exited 1)).
Proof.
  intros Hline Hexit.
  assert (Hl : negb (String.eqb (COMP_LINE g) "") = true)
    by now apply negb_true_iff, String.eqb_neq.
  unfold Run, TrapPanic, complete, Exit. monad. rewrite Hl, Hexit.
  destruct (ArgsFrom (COMP_LINE g)) as [|l0 ls] eqn:Ha; cbv [from1]; monad.
  - destruct (AllowPanic g); simpl.
    + exists []. rewrite app_nil_r. conjs; try reflexivity. right. now split.
    + exists [EvLogPanic OutOfRange]. conjs; try reflexivity. right. now split.
  - destruct (Seek (cacheAliases h x) x ls) as [[h1 cmd] args].
    remember (_ ++ Standard h1 cmd args) as cand eqn:Hcand. clear Hcand.
    remember ((len cand =? 1) && (len (l0 :: ls) =? 2)) as b eqn:Hb. clear Hb.
    destruct (Completer (h1 cmd)) as [c|]; simpl.
    + rewrite <- app_assoc. eexists. conjs; [reflexivity | reflexivity |].
      left. reflexivity.
    + destruct b; simpl.
      * destruct cand as [|l1 cand']; simpl.
        -- eexists. conjs; [reflexivity | reflexivity | left; reflexivity].
        -- destruct (Z_Aliases g !! l1); simpl;
             eexists; (conjs; [reflexivity | reflexivity | left; reflexivity]).
      * eexists. conjs; [reflexivity | reflexivity | left; reflexivity].
Qed.

Lemma Run_completes_without_calling_witness :
  COMP_LINE completing <> "" /\
  exists out,
    events (snd (Run completing 0%nat (mkState builder ["app"; "b"] []))) =
    [] ++ out /\
    no_call out = true /\
    (fst (Run completing 0%nat (mkState builder ["app"; "b"] [])) = Exited 0 \/
     (ArgsFrom (COMP_LINE completing) = [] /\
      fst (Run completing 0%nat (mkState builder ["app"; "b"] [])) =
      if AllowPanic completing then Panicked OutOfRange else Exited 1)).
Proof.
  split; [discriminate|].
  apply (Run_completes_without_calling completing 0%nat builder
           ["app"; "b"] []); [discriminate | reflexivity].
Defined.

(** ** Multicall [Run]: entries that are not well formed *)

Lemma prepended_odd (g : Globals) (pre : list string) (a : any)
    (post : list any) (s : State) :
  DoNotExit g = false -> (forall str, a <> AnyString str) ->
  prepended g (List.map AnyString pre ++ a :: post) s =
  (Exited 1, mkState (heap s) (osArgs s) (events s ++ [EvLog ErrOnlyStrings])).
Proof.
  intros Hexit Ha. induction pre as [|w pre IH]; simpl.
  - unfold ExitError. monad. simpl.
    destruct a as [p|str|]; try (now destruct (Ha str));
      simpl; now rewrite Hexit.
  - monad. now rewrite IH.
Qed.

(** X10.  With exits enabled the multicall [Run] refuses an entry that is
    not a root followed by strings before any command runs: an empty entry
    is reported as a missing multicall command, a first value that is no
    command as such, and a later value that is no string as such (the
    process having a program name in [os.Args]); each time the error is
    the one thing logged, the status is 1, and the store and [os.Args] are
    left as they were. *)
Theorem Z_Run_refuses_odd_entries (g : Globals) (s : State) :
  DoNotExit g = false ->
  (Z_Commands g !! ExeName g = Some [] ->
   Z_Run g s =
   (Exited 1,
    mkState (heap s) (osArgs s) (events s ++ [EvLog ErrMulticallMissing]))) /\
  (forall v0 vs,
     Z_Commands g !! ExeName g = Some (v0 :: vs) ->
     (forall p, v0 <> AnyCmd p) ->
     Z_Run g s =
     (Exited 1,
      mkState (heap s) (osArgs s) (events s ++ [EvLog ErrFirstNotCmd]))) /\
  (forall cmd pre a post,
     Z_Commands g !! ExeName g =
       Some (AnyCmd cmd :: List.map AnyString pre ++ a :: post) ->
     (forall str, a <> AnyString str) -> osArgs s <> [] ->
     Z_Run g s =
     (Exited 1,
      mkState (heap s) (osArgs s) (events s ++ [EvLog ErrOnlyStrings]))).
Proof.
  intros Hexit. conjs.
  - intros Hv. unfold Z_Run, ExitError. rewrite Hv. monad. simpl.
    now rewrite Hexit.
  - intros v0 vs Hv Hodd. unfold Z_Run, ExitError. rewrite Hv.
    assert (H1 : (len (v0 :: vs) <? 1) = false)
      by (apply Z.ltb_ge; unfold len; simpl length; lia).
    rewrite H1. monad. simpl.
    destruct v0 as [p|str|]; try (now destruct (Hodd p));
      simpl; now rewrite Hexit.
  - intros cmd pre a post Hv Hodd Hargs. unfold Z_Run. rewrite Hv.
    assert (H1 : (len (AnyCmd cmd :: List.map AnyString pre ++ a :: post) <? 1)
                 = false)
      by (apply Z.ltb_ge; unfold len; simpl length; lia).
    assert (H2 : (1 <? len (AnyCmd cmd :: List.map AnyString pre ++ a :: post))
                 = true).
    { apply Z.ltb_lt. unfold len. simpl length.
      rewrite length_app. simpl length. lia. }
    rewrite H1, H2. destruct s as [h o ev]. simpl in Hargs.
    destruct o as [|prog rest]; [contradiction|].
    monad. cbv [from1]. monad.
    now rewrite (prepended_odd g pre a post _ Hexit Hodd).
Qed.

Lemma Z_Run_refuses_odd_entries_witness :
  DoNotExit ls_odd = false /\
  Z_Run ls_odd (mkState lister ["ls"; "-l"] []) =
  (Exited 1, mkState lister ["ls"; "-l"] ([] ++ [EvLog ErrOnlyStrings])).
Proof.
  split; [reflexivity|].
  refine (proj2 (proj2 (Z_Run_refuses_odd_entries ls_odd
            (mkState lister ["ls"; "-l"] []) eq_refl))
            0%nat [] AnyOther [] eq_refl _ _); discriminate.
Defined.

Lemma Z_Run_prepends_witness :
  Z_Commands ls_all !! ExeName ls_all =
    Some (AnyCmd 0%nat :: List.map AnyString ("-a" :: [])) /\
  Z_Run ls_all (mkState lister ["ls"; "-l"] []) =
  (Run ls_all 0%nat;; Exit ls_all;; ExitError ls_all (ErrUnmapped "ls"))
    (mkState lister ["ls"; "-a"; "-l"] []).
Proof.
  split; [reflexivity|].
  exact (Z_Run_prepends ls_all 0%nat "-a" [] lister "ls" ["-l"] [] eq_refl).
Defined.

Lemma Z_Run_unmapped_witness :
  Z_Commands plain !! ExeName plain = None /\
  Z_Run plain (mkState lister ["app"] []) =
  (Exited 1, mkState lister ["app"] [EvLog (ErrUnmapped "app")]).
Proof.
  split; [reflexivity|].
  exact (Z_Run_unmapped plain (mkState lister ["app"] []) eq_refl).
Defined.

Lemma Run_ReqConf_of_root_witness :
  ReqConf (guarded 0%nat) = true /\ Conf plain = None /\
  fst (Run plain 0%nat (mkState guarded ["app"; "get"] [])) = Exited 1 /\
  events (snd (Run plain 0%nat (mkState guarded ["app"; "get"] []))) =
  [EvLog (ErrReqConf "get")].
Proof.
  split; [reflexivity|]. split; [reflexivity|].
  apply (Run_ReqConf_of_root plain 0%nat guarded "app" ["get"] []
           1%nat 1%nat [] succeed); reflexivity.
Defined.

(** ** [comp.Standard]: hidden names *)

(** X14.  Without a completer override and with a token to complete,
    [Standard] suggests a string exactly when it is the name of a command
    or a parameter of the node, starts with the first token, and is not in
    [Hidden]: a hidden command is not suggested even when the token is its
    whole name. *)
Theorem Standard_suggests_no_hidden_name (h : Heap) (x : ptr) (tok : string)
    (rest : list string) (s : string) :
  Completer (h x) = None ->
  (In s (Standard h x (tok :: rest)) <->
   (In s (CmdNames h x) \/ In s (elems (Params (h x)))) /\
   String.prefix tok s = true /\ IsHidden h x s = false).
Proof.
  intros Hc. unfold Standard, HasPrefix. rewrite Hc, Minus_Hidden.
  rewrite !List.filter_In, in_app_iff, negb_true_iff. tauto.
Qed.

Lemma Standard_suggests_no_hidden_name_witness :
  Completer (shy 0%nat) = None /\
  ~ In "test" (Standard shy 0%nat ["test"]) /\
  In "build" (Standard shy 0%nat ["b"]) /\
  In "bare" (Standard shy 0%nat ["b"]).
Proof.
  split; [reflexivity|].
  pose proof (fun tok s =>
    Standard_suggests_no_hidden_name shy 0%nat tok [] s eq_refl) as H.
  conjs.
  - intros Hin. apply H in Hin as (_ & _ & Hh). discriminate Hh.
  - apply H. conjs; [left; left; reflexivity | reflexivity | reflexivity].
  - apply H. conjs; [right; left; reflexivity | reflexivity | reflexivity].
Defined.

(** ** Aliases below the root *)

(** X12.  [Cmd.Run] rebuilds the alias cache of the node it is called on
    and of no other.  At a node other than that root whose cache was never
    built, [Resolve] in the store of the run returns only a child whose
    name is the token: no alias is followed there. *)
Theorem aliases_resolve_at_the_root_only (h : Heap) (x p : ptr) (n : string)
    (c : ptr) :
  p <> x -> _aliases (h p) = None ->
  Resolve (cacheAliases h x) p n = Some c ->
  In c (elems (Commands (h p))) /\ Name (h c) = n.
Proof.
  intros Hne Hnil. unfold Resolve.
  destruct (same_tree_cacheAliases h x p) as (_ & _ & -> & _).
  assert (Hcache : _aliases (cacheAliases h x p) = None).
  { unfold cacheAliases. destruct (Commands (h x));
      now rewrite store_other. }
  rewrite Hcache.
  destruct (Commands (h p)) as [cs|]; [|discriminate].
  destruct (List.find _ cs) as [c0|] eqn:Hf; [|discriminate].
  intros Heq. injection Heq as <-.
  apply List.find_some in Hf as [Hin Hn]. apply String.eqb_eq in Hn.
  destruct (same_tree_cacheAliases h x c0) as (Hname & _).
  split; [exact Hin | now rewrite <- Hname].
Qed.

Lemma aliases_resolve_at_the_root_only_witness :
  1%nat <> 0%nat /\
  Resolve (cacheAliases nested 0%nat) 1%nat "build" = Some 2%nat /\
  In 2%nat (elems (Commands (nested 1%nat))) /\ Name (nested 2%nat) = "build".
Proof.
  assert (Hne : 1%nat <> 0%nat) by discriminate.
  split; [exact Hne|]. split; [reflexivity|].
  exact (aliases_resolve_at_the_root_only nested 0%nat 1%nat "build" 2%nat
           Hne eq_refl eq_refl).
Defined.
